(** * Word count (hw-intro/words/main.c): a shallow embedding and its properties

    The development follows [main.c]: the two scanners [num_words] and
    [count_words], the comparator [wordcount_less] and the driver [main].
    The list library behind [word_count.h] ([init_words], [add_word],
    [wordcount_sort], [fprint_words]) is not part of the sources at hand and
    is modelled from the specification.

    Conventions.
    - [int] is the 32-bit two's complement integer of the usual targets; an
      increment that leaves the range wraps around (ISO C leaves signed
      overflow undefined; wrapping is what the usual compilers produce here).
    - The program never calls [setlocale], so <ctype.h> works in the "C"
      locale: the alphabetic bytes are exactly A-Z and a-z.
    - A stream ([FILE *]) is the list of the bytes that remain to be read;
      [fgetc] hands out the next one as an [int] in 0..255, or [EOF].
    - A pointer that may be NULL is an [option]; [None] at the outermost level
      of a result marks an execution with no defined behaviour (an array
      access out of bounds, a read of an uninitialised byte). *)

From stdpp Require Import base option list numbers strings.
From Stdlib Require Import ZArith Lia Ascii.

Local Open Scope Z_scope.

(** ** Machine integers *)

Module Int.

Definition INT_MAX : Z := 2147483647.
Definition INT_MIN : Z := -2147483648.

(** Reduction of a mathematical integer into the range of [int]. *)
Definition wrap (z : Z) : Z := (z + 2 ^ 31) mod 2 ^ 32 - 2 ^ 31.

Definition add (x y : Z) : Z := wrap (x + y).

(** [x++] *)
Definition incr (x : Z) : Z := add x 1.

End Int.

(** ** <stdio.h> and <ctype.h> *)

(** The bytes of a stream that have not been read yet. *)
Abbreviation FILE := (list ascii) (only parsing).

Definition EOF : Z := -1.

(** The value [fgetc] returns for a byte: the byte as [unsigned char],
    converted to [int]. *)
Definition byte_val (a : ascii) : Z := Z.of_N (N_of_ascii a).

(** Storing an [int] into a [char]. *)
Definition char_of_int (c : Z) : ascii := ascii_of_N (Z.to_N (c mod 256)).

(** The terminating byte of a C string. *)
Definition NUL : ascii := Ascii.zero.

Definition isupper (c : Z) : bool := (65 <=? c) && (c <=? 90).
Definition islower (c : Z) : bool := (97 <=? c) && (c <=? 122).
Definition isalpha (c : Z) : bool := isupper c || islower c.
Definition tolower (c : Z) : Z := if isupper c then c + 32 else c.

(** ** 3.1.1 Total word count: [num_words] *)

(** The locals of [num_words]. *)
Record nw_state : Type := NwState {
  nw_num_words : Z;
  nw_in_word : Z;
  nw_word_length : Z
}.

(** The closing test, used in the loop and after it:
    [if (in_word && word_length > 1) num_words++;] *)
Definition nw_close (st : nw_state) : Z :=
  if negb (nw_in_word st =? 0) && (nw_word_length st >? 1)
  then Int.incr (nw_num_words st)
  else nw_num_words st.

(** One iteration of the [while] loop, for the byte [c] just read. *)
Definition num_words_body (c : Z) (st : nw_state) : nw_state :=
  if isalpha c then
    let word_length := Int.incr (nw_word_length st) in
    let in_word := if nw_in_word st =? 0 then 1 else nw_in_word st in
    NwState (nw_num_words st) in_word word_length
  else
    NwState (nw_close st) 0 0.

(** [while ((c = fgetc(infile)) != EOF) ...]: the loop ends when the stream
    is exhausted. *)
Fixpoint num_words_loop (infile : FILE) (st : nw_state) : nw_state :=
  match infile with
  | [] => st
  | a :: rest => num_words_loop rest (num_words_body (byte_val a) st)
  end.

Definition num_words (infile : FILE) : Z :=
  nw_close (num_words_loop infile (NwState 0 0 0)).

(** ** The reference scanner: maximal alphabetic runs *)

Definition is_alpha (a : ascii) : bool := isalpha (byte_val a).

(** [run_split s rs]: the stream [s] is made of non-alphabetic bytes and of
    the non-empty blocks of alphabetic bytes [rs], in order, each block
    ending at the end of the stream or in front of a non-alphabetic byte
    (so that no block can be extended: the blocks are the maximal runs). *)
Inductive run_split : list ascii → list (list ascii) → Prop :=
  | run_split_nil : run_split [] []
  | run_split_sep a s rs :
      is_alpha a = false → run_split s rs → run_split (a :: s) rs
  | run_split_run w s rs :
      w ≠ [] → Forall (λ a, is_alpha a = true) w →
      head (is_alpha <$> s) ≠ Some true →
      run_split s rs → run_split (w ++ s) (w :: rs).

(** The same, computed: [cur] is the run that is open in front of [s]. *)
Definition close_run (cur : list ascii) : list (list ascii) :=
  match cur with [] => [] | _ => [cur] end.

Fixpoint runs_from (cur : list ascii) (s : list ascii) : list (list ascii) :=
  match s with
  | [] => close_run cur
  | a :: s' =>
      if is_alpha a then runs_from (cur ++ [a]) s'
      else close_run cur ++ runs_from [] s'
  end.

Definition alpha_runs (s : list ascii) : list (list ascii) := runs_from [] s.

(** A run qualifies as a word when it has at least two bytes. *)
Definition qualifies (r : list ascii) : bool := (2 <=? length r)%nat.

Definition count_runs (s : list ascii) : nat :=
  length (List.filter qualifies (alpha_runs s)).

(** ** The word list of word_count.h *)

(** Modelled from the spec: the declaration of [WordCount] is in
    word_count.h, which is missing; a word record is a word (the bytes in
    front of the terminating NUL) with its count, a non-negative integer, and
    the table is the sequence of its records. *)
Record WordCount : Type := mkWordCount {
  word : string;
  count : N
}.

Abbreviation WordCountList := (list WordCount) (only parsing).

(** Modelled from the spec: [init_words] of word_count.c is missing;
    "returns an empty table". *)
Definition init_words : WordCountList := [].

(** Modelled from the spec: [add_word] of word_count.c is missing; it
    "looks up word by exact string match; if present, increments its count by
    1; otherwise inserts a new record with count 1", new records being
    appended. *)
Fixpoint add_word (wclist : WordCountList) (w : string) : WordCountList :=
  match wclist with
  | [] => [mkWordCount w 1]
  | wc :: rest =>
      if String.eqb (word wc) w
      then mkWordCount (word wc) (N.succ (count wc)) :: rest
      else wc :: add_word rest w
  end.

(** Modelled from the spec: [wordcount_sort] of word_count.c is missing; it
    "reorders the table in place using a caller-supplied total order". The
    model inserts the records one by one, each in front of the first record
    it is less than. *)
Fixpoint sort_insert (less : WordCount → WordCount → bool)
    (wc : WordCount) (sorted : WordCountList) : WordCountList :=
  match sorted with
  | [] => [wc]
  | wc' :: rest =>
      if less wc wc' then wc :: wc' :: rest
      else wc' :: sort_insert less wc rest
  end.

Definition wordcount_sort (wclist : WordCountList)
    (less : WordCount → WordCount → bool) : WordCountList :=
  foldr (sort_insert less) [] wclist.

(** The count recorded for [w]: the one of the first record holding [w],
    the record [add_word] increments. *)
Fixpoint lookup_count (w : string) (wclist : WordCountList) : N :=
  match wclist with
  | [] => 0%N
  | wc :: rest =>
      if String.eqb (word wc) w then count wc else lookup_count w rest
  end.

(** The sum of the counts of all records. *)
Definition total_count (wclist : WordCountList) : N :=
  foldr (λ wc acc, (count wc + acc)%N) 0%N wclist.

(** ** 3.1.2 Word frequency count: [count_words] *)

Definition MAX_WORD_LEN : Z := 64.

(** A [char] array; [None] is a byte that was never written. *)
Abbreviation buffer := (list (option ascii)) (only parsing).

(** [buf[i] = c]; no defined behaviour outside of the array. *)
Definition buf_store (buf : buffer) (i : Z) (c : ascii) : option buffer :=
  if (0 <=? i) && (i <? Z.of_nat (length buf))
  then Some (<[Z.to_nat i := Some c]> buf)
  else None.

(** The C string that starts at the beginning of [buf]: the bytes in front
    of the first NUL. Reading an unwritten byte, or past the array, has no
    defined behaviour. *)
Fixpoint c_str (buf : buffer) : option string :=
  match buf with
  | [] => None
  | None :: _ => None
  | Some c :: rest =>
      if Ascii.eqb c NUL then Some EmptyString
      else String c <$> c_str rest
  end.

Section count_words.

(** [count_words] reaches the table only through [add_word(wclist, word)],
    which receives the address of the buffer: [add_word_fn t buf] is the
    table after such a call, for the table [t] before it. The function is
    [add_word_call] below for the word list of word_count.h. *)
Context {T : Type} (add_word_fn : T → buffer → option T).

(** The locals of [count_words] and the table behind [wclist]. *)
Record cw_state : Type := CwState {
  cw_word : buffer;
  cw_index : Z;
  cw_table : T
}.

(** [word[index] = '\0'; add_word(wclist, word);] *)
Definition cw_emit (st : cw_state) : option cw_state :=
  word' ← buf_store (cw_word st) (cw_index st) NUL;
  table' ← add_word_fn (cw_table st) word';
  Some (CwState word' (cw_index st) table').

(** One iteration of the [while] loop, for the byte [c] just read. *)
Definition count_words_body (c : Z) (st : cw_state) : option cw_state :=
  if isalpha c then
    if cw_index st <? MAX_WORD_LEN then
      word' ← buf_store (cw_word st) (cw_index st) (char_of_int (tolower c));
      Some (CwState word' (Int.incr (cw_index st)) (cw_table st))
    else Some st
  else if cw_index st >? 1 then
    st' ← cw_emit st;
    Some (CwState (cw_word st') 0 (cw_table st'))
  else Some st.

Fixpoint count_words_loop (infile : FILE) (st : cw_state) : option cw_state :=
  match infile with
  | [] => Some st
  | a :: rest =>
      st' ← count_words_body (byte_val a) st;
      count_words_loop rest st'
  end.

(** The state in which the loop is entered: [char word[MAX_WORD_LEN + 1]]
    is not initialised, [index] is 0. *)
Definition cw_init (table : T) : cw_state :=
  CwState (replicate (Z.to_nat (MAX_WORD_LEN + 1)) None) 0 table.

(** The body of [count_words] below the NULL test: the return value and the
    table it leaves. *)
Definition count_words_run (table : T) (infile : FILE) : option (Z * T) :=
  st ← count_words_loop infile (cw_init table);
  if cw_index st >? 1 then
    st' ← cw_emit st;
    Some (0, cw_table st')
  else Some (0, cw_table st).

(** [wclist] is [None] for a NULL pointer and [Some t] for a pointer to a
    table [t]; the result carries the table behind [wclist] on return. *)
Definition count_words (wclist : option T) (infile : option FILE)
    : option (Z * option T) :=
  match wclist, infile with
  | Some table, Some f =>
      '(ret, table') ← count_words_run table f;
      Some (ret, Some table')
  | _, _ => Some (1, wclist)
  end.

End count_words.

Arguments cw_state : clear implicits.
Arguments CwState {T} _ _ _.
Arguments cw_word {T} _.
Arguments cw_index {T} _.
Arguments cw_table {T} _.

(** [add_word(wclist, word)] on the word list: the callee reads the C string
    in the buffer. *)
Definition add_word_call (wclist : WordCountList) (buf : buffer)
    : option WordCountList :=
  w ← c_str buf; Some (add_word wclist w).

(** The same call, recorded: the table is the list of the buffers that were
    passed, oldest first. *)
Definition log_call (calls : list buffer) (buf : buffer) : option (list buffer) :=
  Some (calls ++ [buf]).

(** ** The comparator *)

(** [strcmp] on C strings (no NUL inside): the sign of the result is that of
    the first difference, the bytes being compared as [unsigned char]; a
    string that ends first is the smaller one. *)
Fixpoint strcmp (s1 s2 : string) : Z :=
  match s1, s2 with
  | EmptyString, EmptyString => 0
  | EmptyString, String b _ => 0 - byte_val b
  | String a _, EmptyString => byte_val a - 0
  | String a r1, String b r2 =>
      if byte_val a =? byte_val b then strcmp r1 r2
      else byte_val a - byte_val b
  end.

Definition wordcount_less (wc1 wc2 : WordCount) : bool :=
  if (count wc1 =? count wc2)%N
  then strcmp (word wc1) (word wc2) <? 0
  else (count wc1 <? count wc2)%N.

(** Byte-wise lexicographic order on words. *)
Inductive str_lt : string → string → Prop :=
  | str_lt_nil b t : str_lt EmptyString (String b t)
  | str_lt_head a s b t :
      byte_val a < byte_val b → str_lt (String a s) (String b t)
  | str_lt_tail a s t : str_lt s t → str_lt (String a s) (String a t).

Definition str_le (s t : string) : Prop := s = t ∨ str_lt s t.

(** A table is in the order of [less] when no record is less than the one in
    front of it. *)
Definition sorted_by (less : WordCount → WordCount → bool)
    (wclist : WordCountList) : Prop :=
  ∀ (i : nat) (A B : WordCount),
    wclist !! i = Some A → wclist !! S i = Some B → less B A = false.

(** ** The driver: [main] *)

(** What the program writes, in the order of the calls. *)
Inductive event : Type :=
  | Help                                   (* display_help *)
  | PleaseSpecifyMode                      (* "Please specify a mode." *)
  | Perror (path : string)                 (* perror(argv[i]) *)
  | TotalWords (total_words : Z)           (* "The total number of words is: %i" *)
  | Frequencies (wclist : WordCountList).  (* the header and fprint_words *)

Definition display_help : Z * list event := (0, [Help]).

(** The flag loop. [opts] holds the values [getopt_long] returns before it
    returns -1. The result is [inl] for a [return] out of the loop and
    [inr (count_mode, freq_mode)] when the loop ends. *)
Fixpoint parse_flags (opts : list Z) (count_mode freq_mode : bool)
    : (Z * list event) + (bool * bool) :=
  match opts with
  | [] => inr (count_mode, freq_mode)
  | opt :: rest =>
      if opt =? 99 (* 'c' *) then parse_flags rest true false
      else if opt =? 102 (* 'f' *) then parse_flags rest false true
      else if opt =? 104 (* 'h' *) then inl display_help
      else inl display_help
  end.

(** The variables [main] updates while it reads its inputs. *)
Record main_state : Type := MainState {
  total_words : Z;
  word_counts : WordCountList;
  output : list event
}.

Section main.

(** [main] calls [count_words] as a statement: nothing in it depends on
    the value returned. The function called is a parameter here, so that
    this can be stated; [main] below is the program. *)
Context (count_words_fn :
           option WordCountList → option FILE → option (Z * option WordCountList)).

(** The file system as [fopen(path, "r")] sees it: the content of the
    file, or NULL. *)
Context (fopen : string → option FILE).

(** [count_words(&word_counts, infile);] *)
Definition call_count_words (infile : FILE) (st : main_state)
    : option main_state :=
  '(_, wclist) ← count_words_fn (Some (word_counts st)) (Some infile);
  table ← wclist;
  Some (MainState (total_words st) table (output st)).

(** The branch for no file argument: the input is [stdin]. *)
Definition read_stdin (count_mode freq_mode : bool) (stdin : FILE)
    (st : main_state) : option main_state :=
  if count_mode then
    Some (MainState (num_words stdin) (word_counts st) (output st))
  else if freq_mode then call_count_words stdin st
  else Some st.

(** [for (int i = optind; i < argc; i++) ...] *)
Fixpoint files_loop (count_mode freq_mode : bool) (paths : list string)
    (st : main_state) : option main_state :=
  match paths with
  | [] => Some st
  | path :: rest =>
      match fopen path with
      | None =>
          files_loop count_mode freq_mode rest
            (MainState (total_words st) (word_counts st)
                       (output st ++ [Perror path]))
      | Some infile =>
          st' ← (if count_mode then
                   Some (MainState (Int.add (total_words st) (num_words infile))
                                   (word_counts st) (output st))
                 else if freq_mode then call_count_words infile st
                 else Some st);
          files_loop count_mode freq_mode rest st'
      end
  end.

(** [main]: [opts] are the flags as [getopt_long] reports them, [paths]
    the arguments from [argv[optind]] on. The result is the exit status
    and what was written. *)
Definition main_with (opts : list Z) (paths : list string) (stdin : FILE)
    : option (Z * list event) :=
  match parse_flags opts true false with
  | inl ret => Some ret
  | inr (count_mode, freq_mode) =>
      if negb count_mode && negb freq_mode then
        Some (display_help.1, PleaseSpecifyMode :: display_help.2)
      else
        let st0 := MainState 0 init_words [] in
        st ← match paths with
             | [] => read_stdin count_mode freq_mode stdin st0
             | _ => files_loop count_mode freq_mode paths st0
             end;
        if count_mode then
          Some (0, output st ++ [TotalWords (total_words st)])
        else if freq_mode then
          Some (0, output st ++
                   [Frequencies (wordcount_sort (word_counts st) wordcount_less)])
        else Some (0, output st)
  end.

End main.

Definition main (fopen : string → option FILE)
    (opts : list Z) (paths : list string) (stdin : FILE)
    : option (Z * list event) :=
  main_with (count_words add_word_call) fopen opts paths stdin.

(** Concrete inputs are written as string literals. *)
Definition bytes (s : string) : FILE := String.list_ascii_of_string s.

(** ** Notions used in the statements and proofs *)

(** The state of [num_words] when [n] words were counted and the bytes [cur]
    of an open run were read. *)
Definition nw_at (n : Z) (cur : list ascii) : nw_state :=
  NwState n (match cur with [] => 0 | _ => 1 end) (Z.of_nat (length cur)).

Definition count_qualifying (rs : list (list ascii)) : Z :=
  Z.of_nat (length (List.filter qualifies rs)).

(** 2^31 times the word "ab" and a space, and a single run of 2^31
    letters. *)
Definition many_words : FILE :=
  concat (replicate (Z.to_nat 2147483648) (bytes "ab ")).

Definition long_run : FILE := replicate (Z.to_nat 2147483648) "a"%char.

(** The bytes [count_words] stores: lower-case letters. *)
Definition lower_letter (c : ascii) : Prop := islower (byte_val c) = true.

(** What is expected of a word handed to [add_word]. *)
Definition good_word (s : string) : Prop :=
  (2 ≤ String.length s ≤ Z.to_nat MAX_WORD_LEN)%nat ∧
  Forall lower_letter (String.list_ascii_of_string s).

(** A buffer that holds such a word as a C string: every byte up to its
    first NUL was written. *)
Definition good_call (buf : buffer) : Prop :=
  ∃ s, c_str buf = Some s ∧ good_word s.

(** The loop invariant of [count_words]: [w] lists the bytes of the buffer
    below [index]. *)
Record cw_inv {T : Type} (st : cw_state T) (w : list ascii) : Prop := CwInv {
  cw_inv_size : length (cw_word st) = Z.to_nat (MAX_WORD_LEN + 1);
  cw_inv_index : cw_index st = Z.of_nat (length w);
  cw_inv_bound : (length w ≤ Z.to_nat MAX_WORD_LEN)%nat;
  cw_inv_prefix : take (length w) (cw_word st) = Some <$> w;
  cw_inv_lower : Forall lower_letter w
}.

(** [count_words] on lists: [w] holds the bytes of the buffer below
    [index], so that [index] is the length of [w]. One byte read gives the
    words handed to [add_word] and the next [w]. *)
Definition scan_step (c : Z) (w : list ascii) : list string * list ascii :=
  if isalpha c then
    ([], if (length w <? Z.to_nat MAX_WORD_LEN)%nat
         then w ++ [char_of_int (tolower c)] else w)
  else if (2 <=? length w)%nat then ([String.string_of_list_ascii w], [])
  else ([], w).

Fixpoint scan_loop (w : list ascii) (infile : FILE)
    : list string * list ascii :=
  match infile with
  | [] => ([], w)
  | a :: rest =>
      let step := scan_step (byte_val a) w in
      let tail := scan_loop step.2 rest in
      (step.1 ++ tail.1, tail.2)
  end.

Definition scan_close (w : list ascii) : list string :=
  if (2 <=? length w)%nat then [String.string_of_list_ascii w] else [].

Definition scan_words (infile : FILE) : list string :=
  (scan_loop [] infile).1 ++ scan_close (scan_loop [] infile).2.

(** A run as [count_words] is meant to store it: in lower case, cut after
    [MAX_WORD_LEN] bytes. *)
Definition lowered (r : list ascii) : list ascii :=
  take (Z.to_nat MAX_WORD_LEN)
       ((λ a, char_of_int (tolower (byte_val a))) <$> r).

Definition stored (r : list ascii) : string :=
  String.string_of_list_ascii (lowered r).

(** The calls [calls] made one after the other on the table [t]. *)
Fixpoint replay {T : Type} (add : T → buffer → option T)
    (t : T) (calls : list buffer) : option T :=
  match calls with
  | [] => Some t
  | buf :: rest => t' ← add t buf; replay add t' rest
  end.

(** A word as the table holds it: the bytes of a C string, none of them
    NUL. *)
Fixpoint c_string (s : string) : Prop :=
  match s with
  | EmptyString => True
  | String a rest => a ≠ NUL ∧ c_string rest
  end.

(** The files of the command line that can be opened, and the paths of
    those that cannot. *)
Definition opened (fopen : string → option FILE) (paths : list string)
    : list FILE :=
  omap fopen paths.

Definition unopened (fopen : string → option FILE) (paths : list string)
    : list string :=
  omap (λ path, match fopen path with None => Some path | Some _ => None end)
       paths.

(** The words [count_words] hands to [add_word] on a stream, in order. *)
Definition words_of (infile : FILE) : list string :=
  match count_words_run log_call [] infile with
  | Some (_, calls) => omap c_str calls
  | None => []
  end.

(** Two files, "dog dog" and "dog cat", and no other. *)
Definition two_files (path : string) : option FILE :=
  if String.eqb path "first" then Some (bytes "dog dog")
  else if String.eqb path "second" then Some (bytes "dog cat")
  else None.

(** A file of 2^30 words of two letters, which [num_words] counts exactly,
    and a file system that holds it under two names. *)
Definition half_words : FILE :=
  concat (replicate (Z.to_nat 1073741824) (bytes "ab ")).

Definition two_halves (path : string) : option FILE :=
  if String.eqb path "first" then Some half_words
  else if String.eqb path "second" then Some half_words
  else None.

(** Two words of 65 letters that differ in the last one only, behind a
    single letter: "x", then 64 times "a" and "b", then 64 times "a" and
    "c". *)
Definition long_pair : FILE :=
  bytes "x " ++ replicate 64 "a"%char ++ bytes "b " ++
  replicate 64 "a"%char ++ bytes "c".

(** How often [w] occurs in a list of words. *)
Definition occurrences (w : string) (ws : list string) : N :=
  foldr (λ s n, if String.eqb s w then N.succ n else n) 0%N ws.

Definition Z_sum (l : list Z) : Z := foldr Z.add 0 l.
Definition N_sum (l : list N) : N := foldr N.add 0%N l.

(** * Properties *)

(** ** Machine integers *)

Lemma wrap_small (z : Z) :
  Int.INT_MIN ≤ z ≤ Int.INT_MAX → Int.wrap z = z.
Proof.
  unfold Int.INT_MIN, Int.INT_MAX, Int.wrap. intros Hz.
  rewrite Z.mod_small; lia.
Qed.

Lemma wrap_add_l (x y : Z) : Int.wrap (Int.wrap x + y) = Int.wrap (x + y).
Proof.
  unfold Int.wrap.
  replace ((x + 2 ^ 31) mod 2 ^ 32 - 2 ^ 31 + y + 2 ^ 31)
    with ((x + 2 ^ 31) mod 2 ^ 32 + y) by lia.
  rewrite Zplus_mod_idemp_l. f_equal. f_equal. lia.
Qed.

Lemma wrap_range (z : Z) : Int.INT_MIN ≤ Int.wrap z ≤ Int.INT_MAX.
Proof.
  unfold Int.INT_MIN, Int.INT_MAX, Int.wrap.
  pose proof (Z.mod_pos_bound (z + 2 ^ 31) (2 ^ 32)). lia.
Qed.

Lemma wrap_wrap (z : Z) : Int.wrap (Int.wrap z) = Int.wrap z.
Proof. apply wrap_small, wrap_range. Qed.

Lemma incr_small (x : Z) :
  Int.INT_MIN ≤ x < Int.INT_MAX → Int.incr x = x + 1.
Proof. intros Hx. apply wrap_small. lia. Qed.

(** ** The reference scanner *)

Lemma runs_from_alpha_app (w : list ascii) :
  Forall (λ a, is_alpha a = true) w →
  ∀ cur s, runs_from cur (w ++ s) = runs_from (cur ++ w) s.
Proof.
  induction 1 as [|a w Ha _ IH]; intros cur s; simpl.
  - by rewrite app_nil_r.
  - rewrite Ha, IH, <- app_assoc. done.
Qed.

Lemma runs_from_stop (cur s : list ascii) :
  head (is_alpha <$> s) ≠ Some true →
  runs_from cur s = close_run cur ++ runs_from [] s.
Proof.
  destruct s as [|a s]; simpl; intros Hhd.
  - by rewrite app_nil_r.
  - destruct (is_alpha a); [congruence | done].
Qed.

Lemma run_split_alpha_runs_eq (s : list ascii) (rs : list (list ascii)) :
  run_split s rs → alpha_runs s = rs.
Proof.
  unfold alpha_runs. induction 1 as [|a s rs Ha _ IH|w s rs Hw Hall Hhd _ IH].
  - done.
  - simpl. by rewrite Ha.
  - rewrite runs_from_alpha_app by done. simpl.
    rewrite runs_from_stop by done. rewrite IH.
    destruct w; [done | reflexivity].
Qed.

Lemma run_split_runs_from (s : list ascii) :
  ∀ cur, Forall (λ a, is_alpha a = true) cur →
    run_split (cur ++ s) (runs_from cur s).
Proof.
  induction s as [|a s IH]; intros cur Hcur; simpl.
  - destruct cur as [|c cur]; [constructor|].
    apply (run_split_run (c :: cur) [] []); [done | done | done | constructor].
  - destruct (is_alpha a) eqn:Ha.
    + replace (cur ++ a :: s) with ((cur ++ [a]) ++ s) by by rewrite <- app_assoc.
      apply IH. apply Forall_app; split; [done | by constructor].
    + assert (run_split (a :: s) (runs_from [] s)) as Hrest
        by (apply run_split_sep; [done | apply (IH []); constructor]).
      destruct cur as [|c cur]; [done|].
      apply (run_split_run (c :: cur)); [done | done | | done].
      simpl. rewrite Ha. congruence.
Qed.

Lemma run_split_alpha_runs (s : list ascii) : run_split s (alpha_runs s).
Proof. apply (run_split_runs_from s []). constructor. Qed.

(** ** [num_words] *)

Lemma count_qualifying_app (rs1 rs2 : list (list ascii)) :
  count_qualifying (rs1 ++ rs2) = count_qualifying rs1 + count_qualifying rs2.
Proof.
  unfold count_qualifying. rewrite List.filter_app, length_app. lia.
Qed.

Lemma count_qualifying_close (cur : list ascii) :
  0 ≤ count_qualifying (close_run cur) ≤ Z.of_nat (length cur) ∧
  count_qualifying (close_run cur) ≤ 1.
Proof.
  unfold count_qualifying, qualifies.
  destruct cur as [|a [|b cur]]; simpl; lia.
Qed.

Lemma count_qualifying_nonneg (rs : list (list ascii)) : 0 ≤ count_qualifying rs.
Proof. unfold count_qualifying. lia. Qed.

(** An open run is a prefix of the first run found from there on. *)
Lemma runs_from_head (s : list ascii) :
  ∀ cur, cur ≠ [] → ∃ w rs, runs_from cur s = (cur ++ w) :: rs.
Proof.
  induction s as [|a s IH]; intros cur Hcur; simpl.
  - exists [], []. rewrite app_nil_r. by destruct cur.
  - destruct (is_alpha a).
    + destruct (IH (cur ++ [a])) as (w & rs & ->); [by destruct cur|].
      exists (a :: w), rs. by rewrite <- app_assoc.
    + exists [], (runs_from [] s). rewrite app_nil_r. by destruct cur.
Qed.

Lemma nw_close_at (n : Z) (cur : list ascii) :
  0 ≤ n → n + count_qualifying (close_run cur) ≤ Int.INT_MAX →
  nw_close (nw_at n cur) = n + count_qualifying (close_run cur).
Proof.
  intros Hn Hmax. unfold nw_close, nw_at.
  cbn [nw_in_word nw_word_length nw_num_words].
  destruct cur as [|a [|b cur]];
    [unfold count_qualifying; simpl; lia | unfold count_qualifying; simpl; lia |].
  destruct (Z.gtb_spec (Z.of_nat (length (a :: b :: cur))) 1) as [_|Hle];
    [|simpl length in Hle; lia].
  cbn [Z.eqb negb andb].
  rewrite incr_small; [reflexivity|].
  change (count_qualifying (close_run (a :: b :: cur))) with 1 in Hmax.
  unfold Int.INT_MIN, Int.INT_MAX in *. lia.
Qed.

(** The loop of [num_words], from a state with [n] words counted and the
    run [cur] open: as long as neither counter leaves the range of [int],
    the words counted at the end are [n] and the qualifying runs ahead. *)
Lemma num_words_loop_runs (s : list ascii) :
  ∀ n cur,
    0 ≤ n →
    Forall (λ r, Z.of_nat (length r) ≤ Int.INT_MAX) (runs_from cur s) →
    n + count_qualifying (runs_from cur s) ≤ Int.INT_MAX →
    nw_close (num_words_loop s (nw_at n cur)) =
    n + count_qualifying (runs_from cur s).
Proof.
  induction s as [|a s IH]; intros n cur Hn Hruns Hmax.
  - simpl. by apply nw_close_at.
  - simpl num_words_loop. simpl runs_from in *. unfold num_words_body.
    fold (is_alpha a). destruct (is_alpha a).
    + replace (NwState _ _ _) with (nw_at n (cur ++ [a])); [by apply IH|].
      unfold nw_at. rewrite length_app. cbn [nw_num_words nw_in_word nw_word_length].
      f_equal; [by destruct cur|].
      destruct (runs_from_head s (cur ++ [a])) as (w & rs & Heq);
        [by destruct cur|].
      rewrite Heq in Hruns. apply Forall_cons in Hruns as [Hlen _].
      rewrite !length_app in Hlen. cbn [length] in *.
      rewrite incr_small; [lia|]. unfold Int.INT_MIN, Int.INT_MAX in *. lia.
    + apply Forall_app in Hruns as [_ Hruns].
      rewrite count_qualifying_app in *.
      pose proof (count_qualifying_close cur) as Hc.
      pose proof (count_qualifying_nonneg (runs_from [] s)) as Hs.
      rewrite nw_close_at by lia.
      change (NwState ?m 0 0) with (nw_at m []).
      rewrite IH; [lia | lia | done | lia].
Qed.

(** Streams of at most [INT_MAX] bytes are within these bounds. *)
Lemma runs_from_length (s : list ascii) :
  ∀ cur, Forall (λ r, (length r ≤ length cur + length s)%nat) (runs_from cur s).
Proof.
  induction s as [|a s IH]; intros cur; simpl.
  - destruct cur; simpl; [constructor | constructor; [simpl; lia | constructor]].
  - destruct (is_alpha a).
    + eapply Forall_impl; [apply IH|]. intros r. simpl.
      rewrite length_app. simpl. lia.
    + apply Forall_app. split.
      * destruct cur; simpl; [constructor | constructor; [simpl; lia | constructor]].
      * eapply Forall_impl; [apply (IH [])|]. intros r. simpl. lia.
Qed.

Lemma runs_from_count (s : list ascii) :
  ∀ cur, count_qualifying (runs_from cur s) ≤ Z.of_nat (length cur + length s).
Proof.
  induction s as [|a s IH]; intros cur; simpl.
  - pose proof (count_qualifying_close cur). lia.
  - destruct (is_alpha a).
    + specialize (IH (cur ++ [a])). rewrite length_app in IH. simpl in IH. lia.
    + rewrite count_qualifying_app. specialize (IH []).
      pose proof (count_qualifying_close cur). simpl in IH. lia.
Qed.

Lemma short_stream_in_range (infile : FILE) :
  Z.of_nat (length infile) ≤ Int.INT_MAX →
  Forall (λ r, Z.of_nat (length r) ≤ Int.INT_MAX) (alpha_runs infile) ∧
  Z.of_nat (count_runs infile) ≤ Int.INT_MAX.
Proof.
  intros Hlen. split.
  - eapply Forall_impl; [apply (runs_from_length infile [])|].
    intros r. simpl. lia.
  - pose proof (runs_from_count infile []) as H. simpl in H.
    unfold count_runs, alpha_runs. unfold count_qualifying in H. lia.
Qed.

(** C1 (amended). [alpha_runs] lists the maximal alphabetic runs of a
    stream. On a stream with at most [INT_MAX] runs of two bytes or more, in
    which no run is longer than [INT_MAX] bytes, [num_words] returns the
    number of the runs of two bytes or more, a run open at the end of the
    stream included. *)
Theorem num_words_counts_runs (infile : FILE) :
  Forall (λ r, Z.of_nat (length r) ≤ Int.INT_MAX) (alpha_runs infile) →
  Z.of_nat (count_runs infile) ≤ Int.INT_MAX →
  (∀ rs, run_split infile rs ↔ rs = alpha_runs infile) ∧
  num_words infile = Z.of_nat (count_runs infile).
Proof.
  intros Hruns Hcount. split.
  - intros rs. split.
    + intros H. symmetry. by apply run_split_alpha_runs_eq.
    + intros ->. apply run_split_alpha_runs.
  - unfold num_words. change (NwState 0 0 0) with (nw_at 0 []).
    rewrite num_words_loop_runs; [reflexivity | lia | done |].
    unfold count_qualifying. fold (alpha_runs infile). fold (count_runs infile).
    lia.
Qed.

Lemma num_words_counts_runs_witness :
  (∀ rs, run_split (bytes "the cat sat on the mat") rs ↔
         rs = alpha_runs (bytes "the cat sat on the mat")) ∧
  num_words (bytes "the cat sat on the mat") =
  Z.of_nat (count_runs (bytes "the cat sat on the mat")).
Proof.
  apply num_words_counts_runs;
    apply short_stream_in_range; vm_compute; discriminate.
Defined.

(** In particular, on every stream of at most [INT_MAX] bytes. *)
Lemma num_words_short_stream (infile : FILE) :
  Z.of_nat (length infile) ≤ Int.INT_MAX →
  num_words infile = Z.of_nat (count_runs infile).
Proof.
  intros Hlen. destruct (short_stream_in_range infile Hlen) as [Hruns Hcount].
  unfold num_words. change (NwState 0 0 0) with (nw_at 0 []).
  rewrite num_words_loop_runs; [reflexivity | lia | done |].
  unfold count_qualifying. fold (alpha_runs infile). fold (count_runs infile).
  lia.
Qed.

(** *** Beyond the range of [int] *)

(** What [num_words] returns is an [int]. *)
Lemma nw_close_range (st : nw_state) :
  Int.INT_MIN ≤ nw_num_words st ≤ Int.INT_MAX →
  Int.INT_MIN ≤ nw_close st ≤ Int.INT_MAX.
Proof.
  intros Hn. unfold nw_close.
  destruct (negb _ && _); [apply wrap_range | done].
Qed.

Lemma num_words_loop_range (infile : FILE) :
  ∀ st, Int.INT_MIN ≤ nw_num_words st ≤ Int.INT_MAX →
        Int.INT_MIN ≤ nw_num_words (num_words_loop infile st) ≤ Int.INT_MAX.
Proof.
  induction infile as [|a rest IH]; intros st Hn; simpl; [done|].
  apply IH. unfold num_words_body.
  destruct (isalpha _); simpl; [done | by apply nw_close_range].
Qed.

Lemma num_words_range (infile : FILE) :
  Int.INT_MIN ≤ num_words infile ≤ Int.INT_MAX.
Proof.
  apply nw_close_range, num_words_loop_range. simpl.
  unfold Int.INT_MIN, Int.INT_MAX. lia.
Qed.

(** The loop over [k] times "ab ", from a state with no run open. *)
Lemma num_words_loop_words (k : nat) :
  ∀ n, Int.wrap n = n →
    num_words_loop (concat (replicate k (bytes "ab "))) (NwState n 0 0) =
    NwState (Int.wrap (n + Z.of_nat k)) 0 0.
Proof.
  induction k as [|k IH]; intros n Hn.
  - simpl. by rewrite Z.add_0_r, Hn.
  - change (concat (replicate (S k) (bytes "ab ")))
      with ("a"%char :: "b"%char :: " "%char :: concat (replicate k (bytes "ab "))).
    cbn [num_words_loop].
    change (num_words_body _ (num_words_body _ (num_words_body _ (NwState n 0 0))))
      with (NwState (Int.incr n) 0 0).
    rewrite IH by apply wrap_wrap.
    unfold Int.incr, Int.add. rewrite wrap_add_l. do 2 f_equal. lia.
Qed.

Lemma run_split_words (k : nat) :
  run_split (concat (replicate k (bytes "ab "))) (replicate k (bytes "ab")).
Proof.
  induction k as [|k IH]; [constructor|].
  apply (run_split_run (bytes "ab") (" "%char :: concat (replicate k (bytes "ab ")))).
  - done.
  - by repeat constructor.
  - done.
  - by apply run_split_sep.
Qed.

Lemma count_runs_words (k : nat) :
  count_runs (concat (replicate k (bytes "ab "))) = k.
Proof.
  unfold count_runs. rewrite (run_split_alpha_runs_eq _ _ (run_split_words k)).
  induction k as [|k IH]; [done|].
  change (replicate (S k) (bytes "ab")) with (bytes "ab" :: replicate k (bytes "ab")).
  change (List.filter qualifies (bytes "ab" :: ?l))
    with (bytes "ab" :: List.filter qualifies l).
  cbn [length]. by rewrite IH.
Qed.

Lemma num_words_words_wrap (k : nat) :
  Z.of_nat k = 2147483648 →
  num_words (concat (replicate k (bytes "ab "))) = Int.INT_MIN.
Proof.
  intros Hk. unfold num_words. rewrite num_words_loop_words by reflexivity.
  rewrite Z.add_0_l, Hk. reflexivity.
Qed.

Lemma num_words_many_words :
  num_words many_words = Int.INT_MIN ∧
  Z.of_nat (count_runs many_words) = Int.INT_MAX + 1.
Proof.
  unfold many_words. split.
  - apply num_words_words_wrap, Z2Nat.id. lia.
  - rewrite count_runs_words, Z2Nat.id by lia. reflexivity.
Qed.

(** C1, as stated, fails on 2^31 times "ab ": the stream has 2^31 runs of
    two letters, and no [int] is 2^31. *)
Lemma num_words_many_words_miscounts :
  num_words many_words ≠ Z.of_nat (count_runs many_words).
Proof.
  destruct num_words_many_words as [-> ->].
  unfold Int.INT_MIN, Int.INT_MAX. lia.
Qed.

(** A run of 2^31 letters is not counted either: [word_length] is negative
    when the run ends. *)
Lemma num_words_loop_letters (a : ascii) (k : nat) :
  is_alpha a = true →
  ∀ st,
    num_words_loop (replicate (S k) a) st =
    NwState (nw_num_words st)
            (if nw_in_word st =? 0 then 1 else nw_in_word st)
            (Int.wrap (nw_word_length st + Z.of_nat (S k))).
Proof.
  intros Ha. induction k as [|k IH]; intros st.
  - simpl. unfold num_words_body. fold (is_alpha a). rewrite Ha. reflexivity.
  - change (replicate (S (S k)) a) with (a :: replicate (S k) a).
    cbn [num_words_loop]. rewrite IH. unfold num_words_body.
    fold (is_alpha a). rewrite Ha. cbn [nw_num_words nw_in_word nw_word_length].
    f_equal.
    + destruct (nw_in_word st =? 0) eqn:E; [reflexivity | by rewrite E].
    + unfold Int.incr, Int.add. rewrite wrap_add_l. f_equal. lia.
Qed.

Lemma num_words_letters_wrap (a : ascii) (k : nat) :
  is_alpha a = true → Z.of_nat k = 2147483648 →
  num_words (replicate k a) = 0.
Proof.
  intros Ha Hk. destruct k as [|k]; [discriminate|].
  unfold num_words. rewrite num_words_loop_letters by done.
  cbn [nw_num_words nw_in_word nw_word_length]. rewrite Z.add_0_l, Hk.
  reflexivity.
Qed.

Lemma count_runs_letters (a : ascii) (k : nat) :
  is_alpha a = true → (2 ≤ k)%nat → count_runs (replicate k a) = 1%nat.
Proof.
  intros Ha Hk. unfold count_runs.
  rewrite (run_split_alpha_runs_eq (replicate k a) [replicate k a]).
  - cbn [List.filter]. unfold qualifies. rewrite length_replicate.
    destruct (Nat.leb_spec 2 k); [reflexivity | lia].
  - rewrite <- (app_nil_r (replicate k a)) at 1.
    apply run_split_run; [| | done | constructor].
    + destruct k; [lia | done].
    + apply Forall_replicate. done.
Qed.

Lemma num_words_long_run :
  num_words long_run = 0 ∧ count_runs long_run = 1%nat.
Proof.
  unfold long_run. split.
  - apply num_words_letters_wrap; [reflexivity | apply Z2Nat.id; lia].
  - apply count_runs_letters; [reflexivity | lia].
Qed.

(** ** Bytes and C strings *)

Lemma byte_val_range (a : ascii) : 0 ≤ byte_val a < 256.
Proof.
  unfold byte_val. pose proof (N_ascii_bounded a). lia.
Qed.

(** [fgetc] returns [EOF] at the end of the stream only. *)
Lemma byte_val_not_EOF (a : ascii) : byte_val a ≠ EOF.
Proof. pose proof (byte_val_range a). unfold EOF. lia. Qed.

Lemma byte_val_inj (a b : ascii) : byte_val a = byte_val b → a = b.
Proof.
  unfold byte_val. intros H. apply N2Z.inj in H.
  rewrite <- (ascii_N_embedding a), <- (ascii_N_embedding b). by rewrite H.
Qed.

Lemma byte_val_char_of_int (c : Z) :
  0 ≤ c < 256 → byte_val (char_of_int c) = c.
Proof.
  intros Hc. unfold byte_val, char_of_int.
  rewrite Z.mod_small by done. rewrite N_ascii_embedding by lia. lia.
Qed.

Lemma lower_letter_tolower (c : Z) :
  isalpha c = true → lower_letter (char_of_int (tolower c)).
Proof.
  unfold lower_letter, isalpha, tolower, isupper, islower. intros Hc.
  destruct (Z.leb_spec 65 c), (Z.leb_spec c 90), (Z.leb_spec 97 c),
    (Z.leb_spec c 122); simpl in *; try discriminate;
    rewrite byte_val_char_of_int by lia;
    apply andb_true_intro; split; apply Z.leb_le; lia.
Qed.

Lemma lower_letter_not_NUL (c : ascii) : lower_letter c → c ≠ NUL.
Proof. intros Hc ->. discriminate Hc. Qed.

Lemma length_string_of_list_ascii (w : list ascii) :
  String.length (String.string_of_list_ascii w) = length w.
Proof. induction w as [|a w IH]; simpl; congruence. Qed.

Lemma c_str_prefix (w : list ascii) (rest : buffer) :
  Forall lower_letter w →
  c_str ((Some <$> w) ++ Some NUL :: rest) = Some (String.string_of_list_ascii w).
Proof.
  induction 1 as [|a w Ha _ IH].
  - reflexivity.
  - rewrite fmap_cons. cbn [app c_str]. rewrite IH. destruct (Ascii.eqb_spec a NUL) as [->|_]; [|reflexivity].
    by apply lower_letter_not_NUL in Ha.
Qed.

(** ** The loop invariant of [count_words] *)

Lemma cw_inv_init {T : Type} (t : T) : cw_inv (cw_init t) [].
Proof.
  constructor; [apply length_replicate | done | simpl; lia | done | done].
Qed.

Lemma cw_inv_store {T : Type} (st : cw_state T) (w : list ascii) (c : ascii) :
  cw_inv st w →
  buf_store (cw_word st) (cw_index st) c =
    Some (<[length w := Some c]> (cw_word st)) ∧
  (length w < length (cw_word st))%nat.
Proof.
  intros [Hsize Hidx Hbound _ _]. unfold buf_store.
  rewrite Hidx, Hsize, Nat2Z.id.
  assert (length w < Z.to_nat (MAX_WORD_LEN + 1))%nat as Hlt
    by (unfold MAX_WORD_LEN in *; lia).
  split; [|done].
  destruct (Z.leb_spec 0 (Z.of_nat (length w))); [|lia].
  destruct (Z.ltb_spec (Z.of_nat (length w))
              (Z.of_nat (Z.to_nat (MAX_WORD_LEN + 1)))); [done | lia].
Qed.

Lemma cw_inv_c_str {T : Type} (st : cw_state T) (w : list ascii) :
  cw_inv st w →
  c_str (<[length w := Some NUL]> (cw_word st)) =
  Some (String.string_of_list_ascii w).
Proof.
  intros Hinv. destruct (cw_inv_store st w NUL Hinv) as [_ Hlt].
  destruct Hinv as [_ _ _ Hpre Hlow].
  rewrite insert_take_drop, Hpre by done. by apply c_str_prefix.
Qed.

Lemma cw_inv_good_word {T : Type} (st : cw_state T) (w : list ascii) :
  cw_inv st w → (2 ≤ length w)%nat →
  good_word (String.string_of_list_ascii w).
Proof.
  intros [_ _ Hbound _ Hlow] Hlen. split.
  - rewrite length_string_of_list_ascii. lia.
  - by rewrite String.list_ascii_of_string_of_list_ascii.
Qed.

Section invariant.

(** [P t ws]: the table [t] is what the calls of [add_word] with the words
    [ws] have made of the table [count_words] was given. *)
Context {T : Type} (add : T → buffer → option T) (P : T → list string → Prop).
Hypothesis add_defined :
  ∀ t ws buf, P t ws → good_call buf → is_Some (add t buf).
Hypothesis add_preserves :
  ∀ t ws buf s t',
    P t ws → c_str buf = Some s → good_word s → add t buf = Some t' →
    P t' (ws ++ [s]).

Lemma cw_emit_inv (st : cw_state T) (w : list ascii) (ws : list string) :
  cw_inv st w → (2 ≤ length w)%nat → P (cw_table st) ws →
  ∃ st', cw_emit add st = Some st' ∧
         P (cw_table st') (ws ++ [String.string_of_list_ascii w]) ∧
         length (cw_word st') = length (cw_word st).
Proof.
  intros Hinv Hlen HP. unfold cw_emit.
  destruct (cw_inv_store st w NUL Hinv) as [-> _]. simpl.
  pose proof (cw_inv_c_str st w Hinv) as Hstr.
  pose proof (cw_inv_good_word st w Hinv Hlen) as Hgood.
  destruct (add_defined _ _ _ HP (ex_intro _ _ (conj Hstr Hgood))) as [t' Ht'].
  rewrite Ht'. simpl.
  eexists. split; [reflexivity|]. simpl. split; [by eauto|].
  by rewrite length_insert.
Qed.

Lemma count_words_body_inv (c : Z) (st : cw_state T)
    (w : list ascii) (ws : list string) :
  cw_inv st w → P (cw_table st) ws →
  ∃ st', count_words_body add c st = Some st' ∧
         cw_inv st' (scan_step c w).2 ∧
         P (cw_table st') (ws ++ (scan_step c w).1).
Proof.
  intros Hinv HP. unfold count_words_body, scan_step.
  pose proof (cw_inv_index _ _ Hinv) as Hidx.
  destruct (isalpha c) eqn:Hc.
  - cbn [fst snd]. rewrite app_nil_r.
    destruct (Z.ltb_spec (cw_index st) MAX_WORD_LEN) as [Hlt|Hge];
      destruct (Nat.ltb_spec (length w) (Z.to_nat MAX_WORD_LEN)) as [Hlt'|Hge'];
      try (unfold MAX_WORD_LEN in *; lia); [|by exists st].
    destruct (cw_inv_store st w (char_of_int (tolower c)) Hinv) as [-> Hw].
    simpl. eexists. split; [reflexivity|]. split; [|done].
    destruct Hinv as [Hsize _ Hbound Hpre Hlow].
    unfold MAX_WORD_LEN in *.
    constructor; cbn [cw_word cw_index cw_table].
    + by rewrite length_insert.
    + rewrite Hidx, length_app. cbn [length]. rewrite incr_small; [lia|].
      unfold Int.INT_MIN, Int.INT_MAX. lia.
    + rewrite length_app. cbn [length]. unfold MAX_WORD_LEN. lia.
    + rewrite length_app. cbn [length]. rewrite Nat.add_1_r.
      rewrite (take_S_r _ _ (Some (char_of_int (tolower c))))
        by by apply list_lookup_insert_eq.
      rewrite take_insert_ge, Hpre, fmap_app by done. done.
    + apply Forall_app. split; [done|]. constructor; [|done].
      by apply lower_letter_tolower.
  - destruct (Z.gtb_spec (cw_index st) 1) as [Hgt|Hle];
      destruct (Nat.leb_spec 2 (length w)) as [Hlen|Hlen']; try lia.
    + destruct (cw_emit_inv st w ws Hinv Hlen HP) as (st' & -> & HP' & Hsize').
      simpl. eexists. split; [reflexivity|]. split; [|done].
      constructor; cbn [cw_word cw_index cw_table length]; try done; [|lia].
      rewrite Hsize'. apply (cw_inv_size _ _ Hinv).
    + cbn [fst snd]. rewrite app_nil_r. by exists st.
Qed.

Lemma count_words_loop_inv (infile : FILE) :
  ∀ (st : cw_state T) (w : list ascii) (ws : list string),
    cw_inv st w → P (cw_table st) ws →
    ∃ st', count_words_loop add infile st = Some st' ∧
           cw_inv st' (scan_loop w infile).2 ∧
           P (cw_table st') (ws ++ (scan_loop w infile).1).
Proof.
  induction infile as [|a rest IH]; intros st w ws Hinv HP;
    cbn [count_words_loop scan_loop fst snd].
  - rewrite app_nil_r. by exists st.
  - destruct (count_words_body_inv (byte_val a) st w ws Hinv HP)
      as (st1 & -> & Hinv1 & HP1).
    simpl. rewrite app_assoc. by apply IH.
Qed.

Lemma count_words_run_inv (t : T) (ws : list string) (infile : FILE) :
  P t ws →
  ∃ t', count_words_run add t infile = Some (0, t') ∧
        P t' (ws ++ scan_words infile).
Proof.
  intros HP. unfold count_words_run, scan_words, scan_close.
  destruct (count_words_loop_inv infile (cw_init t) [] ws (cw_inv_init t) HP)
    as (st & -> & Hinv & HP').
  cbn [mbind option_bind]. pose proof (cw_inv_index _ _ Hinv) as Hidx.
  destruct (Z.gtb_spec (cw_index st) 1) as [Hgt|Hle];
    destruct (Nat.leb_spec 2 (length (scan_loop [] infile).2)) as [Hlen|Hlen'];
    try lia.
  - destruct (cw_emit_inv st _ _ Hinv Hlen HP') as (st' & -> & HP'' & _).
    cbn [mbind option_bind]. eexists. split; [reflexivity|].
    rewrite app_assoc. exact HP''.
  - rewrite app_nil_r. eexists. split; [reflexivity | exact HP'].
Qed.

End invariant.

(** ** The calls of [add_word] *)

Lemma replay_app {T : Type} (add : T → buffer → option T)
    (t : T) (calls1 calls2 : list buffer) :
  replay add t (calls1 ++ calls2) =
  replay add t calls1 ≫= λ t', replay add t' calls2.
Proof.
  revert t. induction calls1 as [|buf calls1 IH]; intros t; simpl; [done|].
  destruct (add t buf) as [t1|]; simpl; [apply IH | done].
Qed.

Section simulation.

Context {T : Type} (add : T → buffer → option T).

(** Whatever [add_word] does with the table, [count_words] goes through
    the same buffers and indices, and makes the same calls. *)
Lemma count_words_body_calls (c : Z) (buf : buffer) (idx : Z)
    (calls : list buffer) (t : T) (st' : cw_state (list buffer)) :
  count_words_body log_call c (CwState buf idx calls) = Some st' →
  ∃ new, cw_table st' = calls ++ new ∧
    count_words_body add c (CwState buf idx t) =
    t' ← replay add t new; Some (CwState (cw_word st') (cw_index st') t').
Proof.
  unfold count_words_body, cw_emit. cbn [cw_word cw_index cw_table].
  destruct (isalpha c).
  - destruct (idx <? MAX_WORD_LEN).
    + destruct (buf_store buf idx _) as [buf'|]; simpl; [|done].
      intros [= <-]. exists []. by rewrite app_nil_r.
    + intros [= <-]. exists []. by rewrite app_nil_r.
  - destruct (idx >? 1).
    + destruct (buf_store buf idx NUL) as [buf'|]; simpl; [|done].
      intros [= <-]. exists [buf']. split; [done|]. simpl.
      by destruct (add t buf').
    + intros [= <-]. exists []. by rewrite app_nil_r.
Qed.

Lemma count_words_loop_calls (infile : FILE) :
  ∀ (buf : buffer) (idx : Z) (calls : list buffer) (t : T)
    (st' : cw_state (list buffer)),
    count_words_loop log_call infile (CwState buf idx calls) = Some st' →
    ∃ new, cw_table st' = calls ++ new ∧
      count_words_loop add infile (CwState buf idx t) =
      t' ← replay add t new; Some (CwState (cw_word st') (cw_index st') t').
Proof.
  induction infile as [|a rest IH]; intros buf idx calls t st'.
  - simpl. intros [= <-]. exists []. by rewrite app_nil_r.
  - cbn [count_words_loop].
    destruct (count_words_body log_call _ _) as [[buf1 idx1 calls1]|] eqn:Hbody;
      [|done].
    destruct (count_words_body_calls _ _ _ _ t _ Hbody) as (new1 & Hc1 & ->).
    cbn [cw_word cw_index cw_table] in *. subst calls1.
    cbn [mbind option_bind]. intros Hloop.
    destruct (replay add t new1) as [t1|] eqn:Ht1.
    + destruct (IH _ _ _ t1 _ Hloop) as (new2 & Hc2 & Hrun).
      exists (new1 ++ new2). split; [by rewrite Hc2, app_assoc|].
      rewrite replay_app, Ht1. simpl. exact Hrun.
    + destruct (IH _ _ _ t _ Hloop) as (new2 & Hc2 & _).
      exists (new1 ++ new2). split; [by rewrite Hc2, app_assoc|].
      rewrite replay_app, Ht1. done.
Qed.

Lemma count_words_run_calls (infile : FILE) (calls : list buffer) (t : T) :
  count_words_run log_call [] infile = Some (0, calls) →
  count_words_run add t infile = t' ← replay add t calls; Some (0, t').
Proof.
  unfold count_words_run, cw_init.
  destruct (count_words_loop log_call infile _) as [[buf idx cs]|] eqn:Hloop;
    [|done].
  destruct (count_words_loop_calls _ _ _ _ t _ Hloop) as (new & Hnew & ->).
  cbn [cw_word cw_index cw_table app] in *. subst cs.
  cbn [mbind option_bind]. unfold cw_emit. cbn [cw_word cw_index cw_table].
  destruct (idx >? 1) eqn:Hgt.
  - destruct (buf_store buf idx NUL) as [buf'|] eqn:Hst; simpl; [|done].
    intros [= <-]. rewrite replay_app.
    destruct (replay add t new) as [t1|]; simpl; [|done].
    rewrite Hgt, Hst. simpl. by destruct (add t1 buf').
  - intros [= <-]. destruct (replay add t new); simpl; [|done].
    by rewrite Hgt.
Qed.

End simulation.

(** The calls [count_words] makes on a stream, all on good buffers, and
    the words in these buffers. *)
Lemma count_words_run_log (infile : FILE) :
  ∃ calls, count_words_run log_call [] infile = Some (0, calls) ∧
           Forall good_call calls ∧
           omap c_str calls = scan_words infile.
Proof.
  destruct (count_words_run_inv log_call
              (λ calls ws, Forall good_call calls ∧ omap c_str calls = ws))
    with (t := @nil buffer) (ws := @nil string) (infile := infile)
    as (calls & Hrun & Hgood & Hws).
  - intros t ws buf _ _. by eexists.
  - intros t ws buf s t' [Hgood Hws] Hs Hword [= <-]. split.
    + apply Forall_app. split; [done|]. constructor; [by exists s | done].
    + rewrite omap_app, Hws. simpl. by rewrite Hs.
  - done.
  - by exists calls.
Qed.

Lemma words_of_scan (infile : FILE) : words_of infile = scan_words infile.
Proof.
  destruct (count_words_run_log infile) as (calls & Hrun & _ & Hws).
  unfold words_of. by rewrite Hrun.
Qed.

Lemma add_word_call_good (t : WordCountList) (buf : buffer) :
  good_call buf → is_Some (add_word_call t buf).
Proof.
  intros (s & Hs & _). unfold add_word_call. rewrite Hs. by eexists.
Qed.

(** [count_words] returns 0 on every table and stream, and leaves the table
    with the words of the stream added. *)
Lemma count_words_run_words (t : WordCountList) (infile : FILE) :
  count_words_run add_word_call t infile =
  Some (0, foldl add_word t (words_of infile)).
Proof.
  destruct (count_words_run_inv add_word_call
              (λ t' ws, t' = foldl add_word t ws))
    with (t := t) (ws := @nil string) (infile := infile)
    as (t' & Hrun & ->).
  - intros t0 ws buf _. apply add_word_call_good.
  - intros t0 ws buf s t' -> Hs _. unfold add_word_call. rewrite Hs.
    intros [= <-]. by rewrite foldl_app.
  - done.
  - by rewrite words_of_scan.
Qed.

Lemma words_of_good (infile : FILE) : Forall good_word (words_of infile).
Proof.
  destruct (count_words_run_log infile) as (calls & Hrun & Hgood & _).
  unfold words_of. rewrite Hrun. clear Hrun.
  induction Hgood as [|buf calls (s & Hs & Hgood) _ IH]; simpl; [done|].
  rewrite Hs. simpl. by constructor.
Qed.

(** C8. In [count_words] the index into the buffer stays within 0..64
    ([MAX_WORD_LEN]) after every byte read, on every table; every buffer
    handed to [add_word] holds a NUL-terminated string of 2 to 64 lower-case
    letters, all bytes of which were written; and the table [count_words]
    leaves is the result of exactly these calls. *)
Theorem count_words_buffer_invariant (infile : FILE) :
  (∀ (t : WordCountList) p q, infile = p ++ q →
     ∃ st, count_words_loop add_word_call p (cw_init t) = Some st ∧
           0 ≤ cw_index st ≤ MAX_WORD_LEN) ∧
  (∃ calls,
     count_words_run log_call [] infile = Some (0, calls) ∧
     Forall good_call calls ∧
     ∀ t, count_words_run add_word_call t infile =
          t' ← replay add_word_call t calls; Some (0, t')).
Proof.
  split.
  - intros t p q _.
    destruct (count_words_loop_inv add_word_call (λ _ _, True)) with
      (infile := p) (st := cw_init t) (w := @nil ascii) (ws := @nil string)
      as (st & Hst & Hinv & _).
    + intros t0 ws buf _. apply add_word_call_good.
    + done.
    + apply cw_inv_init.
    + done.
    + exists st. split; [done|]. destruct Hinv as [_ -> Hb _ _].
      unfold MAX_WORD_LEN in *. lia.
  - destruct (count_words_run_log infile) as (calls & Hrun & Hgood & _).
    exists calls. split; [done|]. split; [done|].
    intros t. by apply count_words_run_calls.
Qed.

(** C5. [count_words] returns 1 exactly when the table handle or the stream
    handle is NULL, and then leaves the table as it was; for every other pair
    of arguments it returns 0. *)
Theorem count_words_return_code
    (wclist : option WordCountList) (infile : option FILE) :
  ∃ ret wclist',
    count_words add_word_call wclist infile = Some (ret, wclist') ∧
    (ret = 1 ↔ wclist = None ∨ infile = None) ∧
    (ret = 1 → wclist' = wclist) ∧
    (wclist ≠ None → infile ≠ None → ret = 0).
Proof.
  destruct wclist as [t|], infile as [f|]; simpl.
  - rewrite count_words_run_words. simpl.
    exists 0, (Some (foldl add_word t (words_of f))). split; [done|]. split; [|done].
    split; [done | intros [?|?]; done].
  - exists 1, (Some t). split; [done|]. split; [|done]. split; auto.
  - exists 1, None. split; [done|]. split; [|done]. split; auto.
  - exists 1, None. split; [done|]. split; [|done]. split; auto.
Qed.


(** ** [strcmp] and the lexicographic order *)

Lemma strcmp_antisym (s t : string) : strcmp t s = - strcmp s t.
Proof.
  revert t. induction s as [|a s IH]; intros [|b t]; simpl; try lia.
  rewrite (Z.eqb_sym (byte_val b) (byte_val a)).
  destruct (byte_val a =? byte_val b); [apply IH | lia].
Qed.

Lemma strcmp_neg (s t : string) :
  c_string t → strcmp s t < 0 ↔ str_lt s t.
Proof.
  revert t. induction s as [|a s IH]; intros [|b t] Ht; simpl.
  - split; [lia | inversion 1].
  - destruct Ht as [Hb _]. split; [constructor|]. intros _.
    pose proof (byte_val_range b).
    assert (byte_val b ≠ 0) by (intros H0; apply Hb, byte_val_inj; exact H0).
    lia.
  - pose proof (byte_val_range a). split; [lia | inversion 1].
  - destruct Ht as [_ Ht]. destruct (Z.eqb_spec (byte_val a) (byte_val b)) as [Hab|Hab].
    + apply byte_val_inj in Hab as ->. rewrite (IH t Ht). split.
      * by constructor.
      * inversion 1; subst; [lia | done].
    + split.
      * intros Hlt. apply str_lt_head. lia.
      * inversion 1; subst; [lia | done].
Qed.

Lemma str_lt_trichotomy (s t : string) : str_lt s t ∨ s = t ∨ str_lt t s.
Proof.
  revert t. induction s as [|a s IH]; intros [|b t].
  - by right; left.
  - left. constructor.
  - right; right. constructor.
  - destruct (Z.lt_trichotomy (byte_val a) (byte_val b)) as [Hlt|[Heq|Hgt]].
    + left. by apply str_lt_head.
    + apply byte_val_inj in Heq as ->.
      destruct (IH t) as [H|[->|H]].
      * left. by apply str_lt_tail.
      * by right; left.
      * right; right. by apply str_lt_tail.
    + right; right. by apply str_lt_head.
Qed.

(** ** The comparator *)

Lemma wordcount_less_spec (A B : WordCount) :
  c_string (word B) →
  wordcount_less A B = true ↔
  (count A < count B)%N ∨ (count A = count B ∧ str_lt (word A) (word B)).
Proof.
  intros HB. unfold wordcount_less.
  destruct (N.eqb_spec (count A) (count B)) as [Heq|Hne].
  - rewrite Z.ltb_lt, (strcmp_neg _ _ HB). split; [by right | ].
    intros [Hlt|[_ Hlt]]; [lia | done].
  - rewrite N.ltb_lt. split; [by left | ]. intros [Hlt|[Heq _]]; done.
Qed.

Lemma wordcount_less_asym (A B : WordCount) :
  wordcount_less A B = true → wordcount_less B A = false.
Proof.
  unfold wordcount_less. rewrite (N.eqb_sym (count B) (count A)).
  destruct (N.eqb_spec (count A) (count B)) as [Heq|Hne].
  - rewrite (strcmp_antisym (word A) (word B)).
    rewrite Z.ltb_lt, Z.ltb_ge. lia.
  - rewrite N.ltb_lt, N.ltb_ge. lia.
Qed.

Lemma wordcount_less_false (A B : WordCount) :
  c_string (word A) → wordcount_less B A = false →
  (count A < count B)%N ∨ (count A = count B ∧ str_le (word A) (word B)).
Proof.
  intros HA Hless. unfold str_le.
  destruct (N.lt_trichotomy (count A) (count B)) as [Hlt|[Heq|Hgt]];
    [by left | | ].
  - right. split; [done|].
    destruct (str_lt_trichotomy (word A) (word B)) as [H|[H|H]]; [by right | by left |].
    assert (wordcount_less B A = true) as Htrue
      by (apply wordcount_less_spec; [done | right; by split]).
    congruence.
  - assert (wordcount_less B A = true) as Htrue
      by (apply wordcount_less_spec; [done | by left]).
    congruence.
Qed.

(** ** Sorting *)

Section sorting.

Context (less : WordCount → WordCount → bool).

Lemma sorted_by_nil : sorted_by less [].
Proof. intros i A B Hi. done. Qed.

Lemma sorted_by_singleton (x : WordCount) : sorted_by less [x].
Proof. intros [|i] A B HA HB; done. Qed.

Lemma sorted_by_cons (x y : WordCount) (l : list WordCount) :
  sorted_by less (x :: y :: l) ↔ less y x = false ∧ sorted_by less (y :: l).
Proof.
  split.
  - intros H. split; [by apply (H 0%nat) |].
    intros i A B HA HB. by apply (H (S i)).
  - intros [Hxy H] [|i] A B HA HB.
    + simpl in HA, HB. congruence.
    + by apply (H i).
Qed.

Hypothesis less_asym : ∀ x y, less x y = true → less y x = false.

Lemma sort_insert_sorted (x : WordCount) (l : list WordCount) :
  sorted_by less l → sorted_by less (sort_insert less x l).
Proof.
  induction l as [|y l IH]; intros Hl; simpl.
  - apply sorted_by_singleton.
  - destruct (less x y) eqn:Hxy.
    + apply sorted_by_cons. split; [by apply less_asym | done].
    + destruct l as [|z l]; simpl.
      * apply sorted_by_cons. split; [done | apply sorted_by_singleton].
      * apply sorted_by_cons in Hl as [Hzy Hl]. specialize (IH Hl).
        simpl in IH. destruct (less x z); apply sorted_by_cons; by split.
Qed.

Lemma wordcount_sort_sorted (l : list WordCount) :
  sorted_by less (wordcount_sort l less).
Proof.
  induction l as [|x l IH]; simpl.
  - apply sorted_by_nil.
  - by apply sort_insert_sorted.
Qed.

End sorting.

Lemma sort_insert_perm (less : WordCount → WordCount → bool)
    (x : WordCount) (l : list WordCount) :
  sort_insert less x l ≡ₚ x :: l.
Proof.
  induction l as [|y l IH]; simpl; [done|].
  destruct (less x y); [done|]. rewrite IH. apply Permutation_swap.
Qed.

Lemma wordcount_sort_perm (less : WordCount → WordCount → bool)
    (l : list WordCount) :
  wordcount_sort l less ≡ₚ l.
Proof.
  induction l as [|x l IH]; simpl; [done|].
  by rewrite sort_insert_perm, IH.
Qed.


(** ** The table *)

Lemma lookup_count_add_word (w s : string) (t : list WordCount) :
  lookup_count w (add_word t s) =
  (lookup_count w t + if String.eqb s w then 1 else 0)%N.
Proof.
  induction t as [|wc t IH]; simpl.
  - destruct (String.eqb s w); lia.
  - destruct (String.eqb_spec (word wc) s) as [Hs|Hs]; simpl.
    + subst s. destruct (String.eqb (word wc) w); lia.
    + destruct (String.eqb_spec (word wc) w) as [Hw|Hw]; [|apply IH].
      subst w. destruct (String.eqb_spec s (word wc)); [congruence | lia].
Qed.

Lemma lookup_count_add_words (w : string) (ws : list string) :
  ∀ t, lookup_count w (foldl add_word t ws) =
       (lookup_count w t + occurrences w ws)%N.
Proof.
  induction ws as [|s ws IH]; intros t; simpl; [lia|].
  rewrite IH, lookup_count_add_word. destruct (String.eqb s w); lia.
Qed.

Lemma occurrences_app (w : string) (ws1 ws2 : list string) :
  occurrences w (ws1 ++ ws2) = (occurrences w ws1 + occurrences w ws2)%N.
Proof.
  induction ws1 as [|s ws1 IH]; simpl; [done|].
  rewrite IH. destruct (String.eqb s w); lia.
Qed.

Lemma words_add_word (t : list WordCount) (s : string) :
  word <$> add_word t s =
  if decide (s ∈ word <$> t) then word <$> t else (word <$> t) ++ [s].
Proof.
  induction t as [|wc t IH].
  - destruct (decide (s ∈ word <$> [])) as [Hin|_]; [|done].
    by apply elem_of_nil in Hin.
  - cbn [add_word]. destruct (String.eqb_spec (word wc) s) as [Hs|Hs].
    + destruct (decide (s ∈ word <$> wc :: t)) as [_|Hnotin]; [done|].
      exfalso. apply Hnotin. subst s. rewrite fmap_cons. left.
    + rewrite fmap_cons, IH.
      destruct (decide (s ∈ word <$> t)) as [Hin|Hnotin],
        (decide (s ∈ word <$> wc :: t)) as [Hin'|Hnotin']; try done.
      * exfalso. apply Hnotin'. rewrite fmap_cons. by right.
      * rewrite fmap_cons in Hin'.
        apply elem_of_cons in Hin' as [?|?]; congruence.
Qed.

Lemma add_word_NoDup (t : list WordCount) (s : string) :
  NoDup (word <$> t) → NoDup (word <$> add_word t s).
Proof.
  intros Hnd. rewrite words_add_word.
  destruct (decide (s ∈ word <$> t)) as [Hin|Hin]; [done|].
  apply NoDup_app. split; [done|]. split; [|apply NoDup_singleton].
  intros x Hx ->%list_elem_of_singleton. done.
Qed.

Lemma add_words_NoDup (ws : list string) :
  ∀ t, NoDup (word <$> t) → NoDup (word <$> foldl add_word t ws).
Proof.
  induction ws as [|s ws IH]; intros t Hnd; simpl; [done|].
  by apply IH, add_word_NoDup.
Qed.

Lemma lookup_count_elem_of (wc : WordCount) (t : list WordCount) :
  NoDup (word <$> t) → wc ∈ t → lookup_count (word wc) t = count wc.
Proof.
  induction t as [|wc' t IH]; simpl; intros Hnd Hin.
  - by apply elem_of_nil in Hin.
  - apply NoDup_cons in Hnd as [Hnotin Hnd].
    apply elem_of_cons in Hin as [->|Hin].
    + by rewrite String.eqb_refl.
    + destruct (String.eqb_spec (word wc') (word wc)) as [Heq|_]; [|by apply IH].
      exfalso. apply Hnotin. rewrite Heq. by apply list_elem_of_fmap_2.
Qed.

Lemma lookup_count_not_elem_of (w : string) (t : list WordCount) :
  w ∉ word <$> t → lookup_count w t = 0%N.
Proof.
  induction t as [|wc t IH]; simpl; intros Hnotin; [done|].
  apply not_elem_of_cons in Hnotin as [Hne Hnotin].
  destruct (String.eqb_spec (word wc) w); [congruence | by apply IH].
Qed.

Lemma lookup_count_perm (w : string) (t t' : list WordCount) :
  NoDup (word <$> t) → t ≡ₚ t' → lookup_count w t = lookup_count w t'.
Proof.
  intros Hnd Hperm.
  assert (NoDup (word <$> t')) as Hnd' by by rewrite <- Hperm.
  destruct (decide (w ∈ word <$> t)) as [Hin|Hnotin].
  - apply list_elem_of_fmap in Hin as (wc & -> & Hin).
    rewrite !lookup_count_elem_of; [done | done | by rewrite <- Hperm | done | done].
  - rewrite !lookup_count_not_elem_of; [done | by rewrite <- Hperm | done].
Qed.

(** ** Good words *)

Lemma good_word_c_string (s : string) : good_word s → c_string s.
Proof.
  intros [_ Hlow]. induction s as [|a s IH]; simpl in *; [done|].
  apply Forall_cons in Hlow as [Ha Hlow].
  split; [by apply lower_letter_not_NUL | by apply IH].
Qed.

Lemma add_word_Forall (P : string → Prop) (t : list WordCount) (s : string) :
  Forall (λ wc, P (word wc)) t → P s →
  Forall (λ wc, P (word wc)) (add_word t s).
Proof.
  induction 1 as [|wc t Hwc Ht IH]; intros Hs; simpl.
  - by repeat constructor.
  - destruct (String.eqb (word wc) s); constructor; [done | done | done | by apply IH].
Qed.

Lemma add_words_Forall (P : string → Prop) (ws : list string) :
  Forall P ws →
  ∀ t, Forall (λ wc, P (word wc)) t →
       Forall (λ wc, P (word wc)) (foldl add_word t ws).
Proof.
  induction 1 as [|s ws Hs _ IH]; intros t Ht; simpl; [done|].
  by apply IH, add_word_Forall.
Qed.


(** ** [count_words] on streams without single letters *)

Lemma take_snoc {A : Type} (n : nat) (l : list A) (x : A) :
  (if (length (take n l) <? n)%nat then take n l ++ [x] else take n l) =
  take n (l ++ [x]).
Proof.
  rewrite length_take.
  destruct (Nat.ltb_spec (n `min` length l) n) as [Hlt|Hge].
  - rewrite (take_ge l) by lia.
    rewrite take_ge; [done|]. rewrite length_app. simpl. lia.
  - rewrite take_app_le by lia. done.
Qed.

Lemma lowered_snoc (cur : list ascii) (a : ascii) :
  (if (length (lowered cur) <? Z.to_nat MAX_WORD_LEN)%nat
   then lowered cur ++ [char_of_int (tolower (byte_val a))]
   else lowered cur) = lowered (cur ++ [a]).
Proof. unfold lowered. by rewrite fmap_snoc, <- take_snoc. Qed.

Lemma length_lowered (cur : list ascii) :
  length (lowered cur) = (Z.to_nat MAX_WORD_LEN `min` length cur)%nat.
Proof. unfold lowered. by rewrite length_take, length_fmap. Qed.

Lemma scan_close_run (cur : list ascii) :
  Forall (λ r, (2 ≤ length r)%nat) (close_run cur) →
  scan_close (lowered cur) = stored <$> close_run cur.
Proof.
  unfold scan_close. rewrite length_lowered. unfold MAX_WORD_LEN.
  destruct cur as [|a cur]; [done|]. intros [Hlen _]%Forall_cons.
  destruct (Nat.leb_spec 2 (Z.to_nat 64 `min` length (a :: cur))); [done | lia].
Qed.

(** Where every run has two letters at least, the words handed to [add_word]
    are the runs, each in lower case and cut after 64 bytes. *)
Lemma scan_loop_runs (s : list ascii) :
  ∀ cur,
    Forall (λ r, (2 ≤ length r)%nat) (runs_from cur s) →
    (scan_loop (lowered cur) s).1 ++ scan_close (scan_loop (lowered cur) s).2 =
    stored <$> runs_from cur s.
Proof.
  induction s as [|a s IH]; intros cur Hruns;
    cbn [scan_loop runs_from fst snd] in *.
  - by apply scan_close_run.
  - unfold scan_step. fold (is_alpha a). destruct (is_alpha a).
    + cbn [fst snd app]. rewrite lowered_snoc. by apply IH.
    + apply Forall_app in Hruns as [Hcur Hruns].
      rewrite fmap_app, <- (scan_close_run cur Hcur), <- (IH [] Hruns).
      unfold scan_close.
      destruct (2 <=? length (lowered cur))%nat eqn:Hlen; cbn [fst snd].
      * by rewrite <- app_assoc.
      * destruct cur as [|c cur]; [done|].
        apply Forall_cons in Hcur as [Hc _].
        rewrite length_lowered in Hlen. unfold MAX_WORD_LEN in Hlen.
        apply Nat.leb_gt in Hlen. simpl length in *. lia.
Qed.

Lemma words_of_runs (infile : FILE) :
  Forall (λ r, (2 ≤ length r)%nat) (alpha_runs infile) →
  words_of infile = stored <$> alpha_runs infile.
Proof.
  intros Hruns. rewrite words_of_scan. by apply (scan_loop_runs infile []).
Qed.

Lemma total_count_add_word (t : list WordCount) (s : string) :
  total_count (add_word t s) = (total_count t + 1)%N.
Proof.
  induction t as [|wc t IH]; simpl; [done|].
  destruct (String.eqb (word wc) s); simpl; [|rewrite IH]; lia.
Qed.

Lemma total_count_add_words (ws : list string) :
  ∀ t, total_count (foldl add_word t ws) =
       (total_count t + N.of_nat (length ws))%N.
Proof.
  induction ws as [|s ws IH]; intros t; simpl foldl; [simpl; lia|].
  rewrite IH, total_count_add_word. simpl length. lia.
Qed.

(** On a stream of at most [INT_MAX] bytes in which every run has two
    letters at least, [count_words] adds each run, in lower case and cut
    after 64 bytes, and the counts of the table add up to what [num_words]
    returns. *)
Lemma count_words_without_single_letters (infile : FILE) :
  Forall (λ r, (2 ≤ length r)%nat) (alpha_runs infile) →
  Z.of_nat (length infile) ≤ Int.INT_MAX →
  ∃ table,
    count_words add_word_call (Some init_words) (Some infile) =
      Some (0, Some table) ∧
    table = foldl add_word init_words (stored <$> alpha_runs infile) ∧
    Z.of_N (total_count table) = num_words infile.
Proof.
  intros Hruns Hlen. eexists. split; [|split; [reflexivity|]].
  - unfold count_words. rewrite count_words_run_words, words_of_runs by done.
    reflexivity.
  - rewrite total_count_add_words, length_fmap, num_words_short_stream by done.
    unfold count_runs. simpl total_count.
    replace (List.filter qualifies (alpha_runs infile)) with (alpha_runs infile);
      [lia|].
    induction Hruns as [|r rs Hr _ IH]; [done|]. simpl.
    unfold qualifies at 1. destruct (Nat.leb_spec 2 (length r)); [|lia].
    by rewrite <- IH.
Qed.


(** ** The flags *)

Lemma parse_flags_inl (opts : list Z) :
  ∀ cm fm ret, parse_flags opts cm fm = inl ret → ret = display_help.
Proof.
  induction opts as [|opt opts IH]; intros cm fm ret; simpl; [done|].
  destruct (opt =? 99); [apply IH|].
  destruct (opt =? 102); [apply IH|].
  destruct (opt =? 104); congruence.
Qed.

Lemma parse_flags_modes (opts : list Z) :
  ∀ cm fm cm' fm',
    xorb cm fm = true → parse_flags opts cm fm = inr (cm', fm') →
    xorb cm' fm' = true.
Proof.
  induction opts as [|opt opts IH]; intros cm fm cm' fm' Hx; simpl.
  - congruence.
  - destruct (opt =? 99); [by apply IH|].
    destruct (opt =? 102); [by apply IH|].
    destruct (opt =? 104); done.
Qed.

(** ** [main], whatever [count_words] returns *)

Lemma unopened_cons_None (fopen : string → option FILE) path paths :
  fopen path = None → unopened fopen (path :: paths) = path :: unopened fopen paths.
Proof. intros H. unfold unopened. simpl. by rewrite H. Qed.

Lemma unopened_cons_Some (fopen : string → option FILE) path paths f :
  fopen path = Some f → unopened fopen (path :: paths) = unopened fopen paths.
Proof. intros H. unfold unopened. simpl. by rewrite H. Qed.

Lemma opened_cons_None (fopen : string → option FILE) path paths :
  fopen path = None → opened fopen (path :: paths) = opened fopen paths.
Proof. intros H. unfold opened. simpl. by rewrite H. Qed.

Lemma opened_cons_Some (fopen : string → option FILE) path paths f :
  fopen path = Some f → opened fopen (path :: paths) = f :: opened fopen paths.
Proof. intros H. unfold opened. simpl. by rewrite H. Qed.

Section main_output.

Context (count_words_fn :
           option WordCountList → option FILE → option (Z * option WordCountList)).
Context (fopen : string → option FILE).

Lemma call_count_words_output (infile : FILE) (st st' : main_state) :
  call_count_words count_words_fn infile st = Some st' →
  output st' = output st.
Proof.
  unfold call_count_words.
  destruct (count_words_fn _ _) as [[ret [t|]]|]; simpl; [|done|done].
  by intros [= <-].
Qed.

Lemma read_stdin_output cm fm (stdin : FILE) (st st' : main_state) :
  read_stdin count_words_fn cm fm stdin st = Some st' →
  output st' = output st.
Proof.
  unfold read_stdin. destruct cm; [by intros [= <-]|].
  destruct fm; [apply call_count_words_output | by intros [= <-]].
Qed.

Lemma files_loop_output cm fm (paths : list string) :
  ∀ st st',
    files_loop count_words_fn fopen cm fm paths st = Some st' →
    output st' = output st ++ (Perror <$> unopened fopen paths).
Proof.
  induction paths as [|path paths IH]; intros st st'; cbn [files_loop].
  - intros [= <-]. by rewrite app_nil_r.
  - destruct (fopen path) as [f|] eqn:Hf.
    + rewrite (unopened_cons_Some _ _ _ _ Hf).
      destruct cm; simpl; [intros Hloop; by apply IH in Hloop|].
      destruct fm; simpl; [|apply IH].
      destruct (call_count_words _ _ _) as [st1|] eqn:Hcall; simpl; [|done].
      intros Hloop. apply IH in Hloop.
      by rewrite (call_count_words_output _ _ _ Hcall) in Hloop.
    + rewrite (unopened_cons_None _ _ _ Hf). intros Hloop.
      apply IH in Hloop. simpl in Hloop. by rewrite <- app_assoc in Hloop.
Qed.

Lemma main_with_result (opts : list Z) (paths : list string) (stdin : FILE)
    (code : Z) (out : list event) :
  main_with count_words_fn fopen opts paths stdin = Some (code, out) →
  code = 0 ∧ PleaseSpecifyMode ∉ out.
Proof.
  unfold main_with.
  destruct (parse_flags opts true false) as [ret|[cm fm]] eqn:Hparse.
  - apply parse_flags_inl in Hparse as ->. intros [= <- <-].
    split; [done|]. by intros [=]%list_elem_of_singleton.
  - apply parse_flags_modes in Hparse; [|done].
    assert (negb cm && negb fm = false) as -> by by destruct cm, fm.
    assert (∀ st, match paths with
                  | [] => read_stdin count_words_fn cm fm stdin (MainState 0 init_words [])
                  | _ => files_loop count_words_fn fopen cm fm paths
                           (MainState 0 init_words [])
                  end = Some st →
                  PleaseSpecifyMode ∉ output st) as Hout.
    { intros st Hst.
      assert (output st = Perror <$> unopened fopen paths) as ->.
      { destruct paths as [|path paths].
        - by apply read_stdin_output in Hst.
        - by apply files_loop_output in Hst. }
      by intros (p & [=] & _)%list_elem_of_fmap. }
    destruct (match paths with [] => _ | _ => _ end) as [st|]; simpl; [|done].
    specialize (Hout st eq_refl).
    destruct cm; [|destruct fm]; intros [= <- <-]; (split; [done|]);
      try done;
      intros [?|[=]%list_elem_of_singleton]%elem_of_app; done.
Qed.

End main_output.

(** ** [main] *)

Lemma call_count_words_words (infile : FILE) (st : main_state) :
  call_count_words (count_words add_word_call) infile st =
  Some (MainState (total_words st)
                  (foldl add_word (word_counts st) (words_of infile))
                  (output st)).
Proof.
  unfold call_count_words, count_words.
  by rewrite count_words_run_words.
Qed.

Lemma files_loop_count (cw : option WordCountList → option FILE →
                             option (Z * option WordCountList))
    (fopen : string → option FILE) (fm : bool) (paths : list string) :
  ∀ st, Int.wrap (total_words st) = total_words st →
    files_loop cw fopen true fm paths st =
    Some (MainState
            (Int.wrap (total_words st + Z_sum (num_words <$> opened fopen paths)))
            (word_counts st)
            (output st ++ (Perror <$> unopened fopen paths))).
Proof.
  induction paths as [|path paths IH]; intros st Hst; cbn [files_loop].
  - simpl. rewrite Z.add_0_r, Hst, app_nil_r. by destruct st.
  - destruct (fopen path) as [f|] eqn:Hf.
    + rewrite (unopened_cons_Some _ _ _ _ Hf), (opened_cons_Some _ _ _ _ Hf).
      simpl. rewrite IH by apply wrap_wrap. simpl. f_equal. f_equal.
      unfold Int.add. rewrite wrap_add_l, <- Z.add_assoc. reflexivity.
    + rewrite (unopened_cons_None _ _ _ Hf), (opened_cons_None _ _ _ Hf).
      rewrite IH by done. simpl. by rewrite <- app_assoc.
Qed.

Lemma files_loop_freq (fopen : string → option FILE) (paths : list string) :
  ∀ st,
    files_loop (count_words add_word_call) fopen false true paths st =
    Some (MainState
            (total_words st)
            (foldl add_word (word_counts st)
                   (concat (words_of <$> opened fopen paths)))
            (output st ++ (Perror <$> unopened fopen paths))).
Proof.
  induction paths as [|path paths IH]; intros st; cbn [files_loop].
  - simpl. rewrite app_nil_r. by destruct st.
  - destruct (fopen path) as [f|] eqn:Hf.
    + rewrite (unopened_cons_Some _ _ _ _ Hf), (opened_cons_Some _ _ _ _ Hf).
      rewrite call_count_words_words. simpl. rewrite IH. simpl.
      by rewrite foldl_app.
    + rewrite (unopened_cons_None _ _ _ Hf), (opened_cons_None _ _ _ Hf).
      rewrite IH. simpl. by rewrite <- app_assoc.
Qed.

Lemma main_defined (fopen : string → option FILE)
    (opts : list Z) (paths : list string) (stdin : FILE) :
  ∃ out, main fopen opts paths stdin = Some (0, out).
Proof.
  assert (is_Some (main fopen opts paths stdin)) as [[code out] Hmain].
  { unfold main, main_with.
    destruct (parse_flags opts true false) as [ret|[cm fm]] eqn:Hparse; [done|].
    destruct (negb cm && negb fm); [done|].
    destruct paths as [|path paths].
    - unfold read_stdin. destruct cm; [done|]. destruct fm; [|done].
      rewrite call_count_words_words. done.
    - destruct cm.
      + rewrite files_loop_count by done. done.
      + destruct fm.
        * rewrite files_loop_freq. done.
        * assert (∀ ps st, is_Some (files_loop (count_words add_word_call)
                                      fopen false false ps st)) as Hloop.
          { induction ps as [|p ps IH]; intros st; simpl; [done|].
            destruct (fopen p); simpl; apply IH. }
          destruct (Hloop (path :: paths) (MainState 0 init_words []))
            as [st ->]. done. }
  exists out. rewrite Hmain.
  by apply main_with_result in Hmain as [-> _].
Qed.

(** What [main] prints in frequency mode: a sorted table of good words. *)
Lemma main_frequencies (fopen : string → option FILE)
    (opts : list Z) (paths : list string) (stdin : FILE)
    (code : Z) (out : list event) (printed : list WordCount) :
  main fopen opts paths stdin = Some (code, out) →
  Frequencies printed ∈ out →
  ∃ T, printed = wordcount_sort T wordcount_less ∧
       Forall (λ wc, good_word (word wc)) T.
Proof.
  unfold main, main_with.
  destruct (parse_flags opts true false) as [ret|[cm fm]] eqn:Hparse.
  - apply parse_flags_inl in Hparse as ->. intros [= <- <-].
    by intros [=]%list_elem_of_singleton.
  - apply parse_flags_modes in Hparse; [|done].
    destruct cm, fm; try done; cbn [negb andb].
    + destruct paths as [|path paths].
      * simpl. intros [= <- <-]. by intros [=]%list_elem_of_singleton.
      * rewrite files_loop_count by done. simpl. intros [= <- <-].
        intros [(p & [=] & _)%list_elem_of_fmap|[=]%list_elem_of_singleton]%elem_of_app.
    + destruct paths as [|path paths].
      * unfold read_stdin. rewrite call_count_words_words. simpl.
        intros [= <- <-]. intros [= ->]%list_elem_of_singleton.
        eexists. split; [done|].
        apply add_words_Forall; [apply words_of_good | constructor].
      * rewrite files_loop_freq. simpl. intros [= <- <-].
        intros [(p & [=] & _)%list_elem_of_fmap|[= ->]%list_elem_of_singleton]%elem_of_app.
        eexists. split; [done|].
        apply add_words_Forall; [|constructor].
        apply Forall_concat, Forall_fmap, Forall_forall.
        intros f _. apply words_of_good.
Qed.


(** ** The order of the table *)

(** C4. [wordcount_less] puts [A] in front of [B] exactly when [A] has the
    smaller count, or the same count and the lexicographically smaller word
    (bytes compared as unsigned values); in a table that is in the order of
    this comparator every record and its successor are in that order, up to
    equality of the words; [wordcount_sort] with this comparator yields
    such a table, with the same records; and so every table [main] prints
    is in that order ("the cat sat on the mat" gives cat 1, mat 1, on 1,
    sat 1, the 2). *)
Theorem wordcount_less_order :
  (∀ A B, c_string (word A) → c_string (word B) →
     wordcount_less A B = true ↔
     (count A < count B)%N ∨
     (count A = count B ∧ str_lt (word A) (word B))) ∧
  (∀ wclist, Forall (λ wc, c_string (word wc)) wclist →
     sorted_by wordcount_less wclist →
     ∀ (i : nat) A B, wclist !! i = Some A → wclist !! S i = Some B →
       (count A < count B)%N ∨
       (count A = count B ∧ str_le (word A) (word B))) ∧
  (∀ wclist,
     sorted_by wordcount_less (wordcount_sort wclist wordcount_less) ∧
     wordcount_sort wclist wordcount_less ≡ₚ wclist) ∧
  (∀ fopen opts paths stdin code out printed,
     main fopen opts paths stdin = Some (code, out) →
     Frequencies printed ∈ out →
     ∀ (i : nat) A B, printed !! i = Some A → printed !! S i = Some B →
       (count A < count B)%N ∨
       (count A = count B ∧ str_le (word A) (word B))) ∧
  main (λ _, None) [102] [] (bytes "the cat sat on the mat") =
    Some (0, [Frequencies [mkWordCount "cat" 1; mkWordCount "mat" 1;
                           mkWordCount "on" 1; mkWordCount "sat" 1;
                           mkWordCount "the" 2]]).
Proof.
  split; [|split; [|split; [|split; [|reflexivity]]]].
  - intros A B _ HB. by apply wordcount_less_spec.
  - intros wclist Hwf Hsorted i A B HA HB.
    apply wordcount_less_false; [|by apply (Hsorted i)].
    rewrite Forall_forall in Hwf. apply Hwf.
    by apply list_elem_of_lookup_2 in HA.
  - intros wclist. split.
    + apply wordcount_sort_sorted, wordcount_less_asym.
    + apply wordcount_sort_perm.
  - intros fopen opts paths stdin code out printed Hmain Hin i A B HA HB.
    destruct (main_frequencies _ _ _ _ _ _ _ Hmain Hin) as (T & -> & Hgood).
    apply wordcount_less_false.
    + apply good_word_c_string.
      apply list_elem_of_lookup_2 in HA. rewrite wordcount_sort_perm in HA.
      rewrite Forall_forall in Hgood. by apply Hgood.
    + by apply (wordcount_sort_sorted wordcount_less wordcount_less_asym T i).
Qed.

(** ** The inputs given to [main] accumulate *)

Lemma N_sum_tables (w : string) (fs : list FILE) :
  N_sum (lookup_count w <$>
           ((λ f, foldl add_word init_words (words_of f)) <$> fs)) =
  occurrences w (concat (words_of <$> fs)).
Proof.
  induction fs as [|f fs IH]; [done|].
  rewrite !fmap_cons. cbn [N_sum foldr concat]. fold (N_sum).
  rewrite occurrences_app, lookup_count_add_words.
  unfold N_sum in IH. rewrite IH. simpl. lia.
Qed.

(** C7. With file arguments, frequency mode adds the words of all files
    that can be opened to one table: what is printed is in the order of the
    comparator and gives every word the sum of the counts it has in the
    tables of the files taken one by one ("dog dog" and "dog cat" give
    cat 1, dog 3); total-count mode prints the sum, in [int] arithmetic, of
    what [num_words] returns on each file, which is their sum whenever that
    is an [int]. *)
Theorem main_accumulates :
  (∀ fopen opts path paths stdin,
     parse_flags opts true false = inr (false, true) →
     ∃ printed tables,
       main fopen opts (path :: paths) stdin =
         Some (0, (Perror <$> unopened fopen (path :: paths)) ++
                  [Frequencies printed]) ∧
       sorted_by wordcount_less printed ∧
       Forall2 (λ f table,
                  count_words add_word_call (Some init_words) (Some f) =
                  Some (0, Some table))
               (opened fopen (path :: paths)) tables ∧
       ∀ w, lookup_count w printed = N_sum (lookup_count w <$> tables)) ∧
  (∀ fopen opts path paths stdin,
     parse_flags opts true false = inr (true, false) →
     main fopen opts (path :: paths) stdin =
       Some (0, (Perror <$> unopened fopen (path :: paths)) ++
                [TotalWords
                   (Int.wrap
                      (Z_sum (num_words <$> opened fopen (path :: paths))))])) ∧
  (∀ fopen opts path paths stdin,
     parse_flags opts true false = inr (true, false) →
     Int.INT_MIN ≤ Z_sum (num_words <$> opened fopen (path :: paths))
       ≤ Int.INT_MAX →
     main fopen opts (path :: paths) stdin =
       Some (0, (Perror <$> unopened fopen (path :: paths)) ++
                [TotalWords
                   (Z_sum (num_words <$> opened fopen (path :: paths)))])) ∧
  main two_files [102] ["first"; "second"] [] =
    Some (0, [Frequencies [mkWordCount "cat" 1; mkWordCount "dog" 3]]) ∧
  main two_files [99] ["first"; "second"] [] = Some (0, [TotalWords 4]).
Proof.
  split; [|split; [|split; [|split; reflexivity]]]; cycle 2.
  { intros fopen opts path paths stdin Hparse Hsum.
    unfold main, main_with. rewrite Hparse. cbn [negb andb].
    rewrite files_loop_count by done. simpl output. simpl total_words.
    rewrite Z.add_0_l, wrap_small by done. reflexivity. }
  - intros fopen opts path paths stdin Hparse.
    set (fs := opened fopen (path :: paths)).
    set (T := foldl add_word init_words (concat (words_of <$> fs))).
    exists (wordcount_sort T wordcount_less),
           ((λ f, foldl add_word init_words (words_of f)) <$> fs).
    split; [|split; [|split]].
    + unfold main, main_with. rewrite Hparse. cbn [negb andb].
      rewrite files_loop_freq. reflexivity.
    + apply wordcount_sort_sorted, wordcount_less_asym.
    + apply Forall2_fmap_r, Forall_Forall2_diag, Forall_forall.
      intros f _. unfold count_words. by rewrite count_words_run_words.
    + intros w. rewrite N_sum_tables.
      rewrite <- (lookup_count_perm w T).
      * unfold T. by rewrite lookup_count_add_words.
      * apply add_words_NoDup. constructor.
      * symmetry. apply wordcount_sort_perm.
  - intros fopen opts path paths stdin Hparse.
    unfold main, main_with. rewrite Hparse. cbn [negb andb].
    rewrite files_loop_count by done. reflexivity.
Qed.

Lemma main_accumulates_witness :
  parse_flags [99] true false = inr (true, false) ∧
  Int.INT_MIN ≤
    Z_sum (num_words <$> opened two_files ["first"; "missing"; "second"])
    ≤ Int.INT_MAX ∧
  main two_files [99] ["first"; "missing"; "second"] [] =
    Some (0, (Perror <$> unopened two_files ["first"; "missing"; "second"]) ++
             [TotalWords
                (Z_sum (num_words <$>
                          opened two_files ["first"; "missing"; "second"]))]).
Proof.
  split; [reflexivity|]. split; [by vm_compute|].
  apply (proj1 (proj2 (proj2 main_accumulates))); [reflexivity | by vm_compute].
Defined.

(** Two files of 2^30 words each: [num_words] counts each of them exactly,
    and the total leaves the range of [int]. *)
Lemma num_words_half_words :
  num_words half_words = 1073741824 ∧
  Z.of_nat (count_runs half_words) = 1073741824.
Proof.
  unfold half_words. split.
  - unfold num_words. rewrite num_words_loop_words by reflexivity.
    rewrite Z2Nat.id by lia. reflexivity.
  - rewrite count_runs_words, Z2Nat.id by lia. reflexivity.
Qed.

Lemma two_halves_opened :
  opened two_halves ["first"; "second"] = [half_words; half_words] ∧
  unopened two_halves ["first"; "second"] = [].
Proof.
  assert (two_halves "first" = Some half_words) as Hfirst by reflexivity.
  assert (two_halves "second" = Some half_words) as Hsecond by reflexivity.
  split.
  - by rewrite (opened_cons_Some _ _ _ _ Hfirst),
               (opened_cons_Some _ _ _ _ Hsecond).
  - by rewrite (unopened_cons_Some _ _ _ _ Hfirst),
               (unopened_cons_Some _ _ _ _ Hsecond).
Qed.

Lemma main_two_halves :
  main two_halves [99] ["first"; "second"] [] =
    Some (0, [TotalWords Int.INT_MIN]).
Proof.
  destruct num_words_half_words as [Hnum _].
  destruct two_halves_opened as [Hopened Hunopened].
  unfold main, main_with.
  change (parse_flags [99] true false)
    with (@inr (Z * list event) _ (true, false)).
  cbn [negb andb].
  rewrite files_loop_count by reflexivity.
  rewrite Hopened, Hunopened.
  cbn [fmap list_fmap Z_sum foldr total_words output word_counts
       mbind option_bind app].
  rewrite Hnum. reflexivity.
Qed.

(** C7, as stated, fails in total-count mode for two files of 2^30 words
    each: both files open, each holds 2^30 runs of two letters and
    [num_words] returns 2^30 on it, so the sum of the per-file counts is
    2^31, which is no [int]; the total printed is [INT_MIN]. *)
Lemma main_total_leaves_int :
  parse_flags [99] true false = inr (true, false) ∧
  opened two_halves ["first"; "second"] = [half_words; half_words] ∧
  num_words half_words = 1073741824 ∧
  Z.of_nat (count_runs half_words) = 1073741824 ∧
  main two_halves [99] ["first"; "second"] [] =
    Some (0, [TotalWords Int.INT_MIN]) ∧
  main two_halves [99] ["first"; "second"] [] ≠
    Some (0, (Perror <$> unopened two_halves ["first"; "second"]) ++
             [TotalWords
                (Z_sum (num_words <$>
                          opened two_halves ["first"; "second"]))]).
Proof.
  destruct num_words_half_words as [Hnum Hruns].
  destruct two_halves_opened as [Hopened Hunopened].
  split; [reflexivity|].
  split; [exact Hopened|]. split; [exact Hnum|]. split; [exact Hruns|].
  split; [exact main_two_halves|].
  rewrite main_two_halves, Hopened, Hunopened.
  cbn [fmap list_fmap Z_sum foldr app]. rewrite Hnum.
  unfold Int.INT_MIN. intros [=].
Qed.

(** C9. [main] does not look at what [count_words] returns: whatever that
    function returns, the exit status of a run of [main] is 0, and so it is
    for the program itself, on every command line and whether or not its
    files can be opened. *)
Theorem main_exit_status :
  (∀ fopen opts paths stdin,
     ∃ out, main fopen opts paths stdin = Some (0, out)) ∧
  (∀ count_words_fn fopen opts paths stdin code out,
     main_with count_words_fn fopen opts paths stdin = Some (code, out) →
     code = 0).
Proof.
  split.
  - apply main_defined.
  - intros cw fopen opts paths stdin code out Hmain.
    by apply main_with_result in Hmain as [-> _].
Qed.

(** C10. When the flag loop of [main] ends, exactly one of [count_mode] and
    [freq_mode] is set, for every sequence of flags ([count_mode] without
    flags, the mode of the last flag otherwise); no run of [main] writes
    "Please specify a mode.". *)
Theorem main_modes_exclusive :
  (∀ opts count_mode freq_mode,
     parse_flags opts true false = inr (count_mode, freq_mode) →
     count_mode = negb freq_mode) ∧
  parse_flags [] true false = inr (true, false) ∧
  parse_flags [102; 99; 102] true false = inr (false, true) ∧
  (∀ count_words_fn fopen opts paths stdin code out,
     main_with count_words_fn fopen opts paths stdin = Some (code, out) →
     PleaseSpecifyMode ∉ out).
Proof.
  split; [|split; [reflexivity|split; [reflexivity|]]].
  - intros opts cm fm Hparse. apply parse_flags_modes in Hparse; [|done].
    by destruct cm, fm.
  - intros cw fopen opts paths stdin code out Hmain.
    by apply main_with_result in Hmain as [_ ?].
Qed.

(** ** Single letters in [count_words] *)

(** C2. On "a b c" [num_words] returns 0, but [count_words] calls
    [add_word] once, with "ab": a run of one letter leaves [index] at 1, and
    the next letter is stored behind it. *)
Theorem single_letters_are_joined :
  num_words (bytes "a b c") = 0 ∧
  words_of (bytes "a b c") = ["ab"] ∧
  count_words add_word_call (Some init_words) (Some (bytes "a b c")) =
    Some (0, Some [mkWordCount "ab" 1]).
Proof. repeat split; reflexivity. Qed.

(** C3. On "a b c" the counts of the table add up to 1, and [num_words]
    returns 0. *)
Theorem total_count_differs :
  ∃ table,
    count_words add_word_call (Some init_words) (Some (bytes "a b c")) =
      Some (0, Some table) ∧
    total_count table = 1%N ∧
    num_words (bytes "a b c") = 0.
Proof. eexists. repeat split; reflexivity. Qed.

(** C6. Behind a single letter, a word of 65 letters is not stored as its
    first 64 letters: on [long_pair] the table holds two records, "x" with
    63 times "a" and 64 times "a", each with count 1, where the two long
    words agree on their first 64 letters. Without the single letter in
    front, the two words are one record with count 2. *)
Theorem long_words_behind_single_letter :
  count_words add_word_call (Some init_words) (Some long_pair) =
    Some (0, Some [
      mkWordCount
        (String.string_of_list_ascii ("x"%char :: replicate 63 "a"%char)) 1;
      mkWordCount (String.string_of_list_ascii (replicate 64 "a"%char)) 1]) ∧
  count_words add_word_call (Some init_words) (Some (drop 2 long_pair)) =
    Some (0, Some [
      mkWordCount (String.string_of_list_ascii (replicate 64 "a"%char)) 2]).
Proof. split; vm_compute; reflexivity. Qed.


(** * Further properties of main.c *)

(** ** [num_words] *)

Lemma num_words_loop_app (s1 s2 : list ascii) :
  ∀ st, num_words_loop (s1 ++ s2) st = num_words_loop s2 (num_words_loop s1 st).
Proof. induction s1 as [|a s1 IH]; intros st; simpl; [done | apply IH]. Qed.

Lemma num_words_loop_mask (s1 : list ascii) :
  ∀ s2 st, is_alpha <$> s1 = is_alpha <$> s2 →
           num_words_loop s1 st = num_words_loop s2 st.
Proof.
  induction s1 as [|a s1 IH]; intros [|b s2] st Hmask; try done.
  rewrite !fmap_cons in Hmask. injection Hmask as Hab Hmask.
  cbn [num_words_loop]. unfold num_words_body.
  fold (is_alpha a). fold (is_alpha b). rewrite Hab. by apply IH.
Qed.

(** X1. [num_words] looks at its input through [isalpha] only: two streams
    with alphabetic bytes at the same positions have the same number of
    words, whatever the letters and whatever the separators. *)
Theorem num_words_alpha_mask (s1 s2 : FILE) :
  is_alpha <$> s1 = is_alpha <$> s2 → num_words s1 = num_words s2.
Proof.
  intros Hmask. unfold num_words. by rewrite (num_words_loop_mask s1 s2).
Qed.

Lemma num_words_alpha_mask_witness :
  num_words (bytes "one two") = num_words (bytes "ONE,TWO").
Proof. apply num_words_alpha_mask. reflexivity. Defined.

Lemma wrap_add_r (x y : Z) : Int.wrap (x + Int.wrap y) = Int.wrap (x + y).
Proof. rewrite Z.add_comm, wrap_add_l. f_equal. lia. Qed.

(** The words counted before a loop is entered are carried through it. *)
Lemma num_words_loop_shift (s : list ascii) :
  ∀ n iw wl, Int.wrap n = n →
    nw_close (num_words_loop s (NwState n iw wl)) =
    Int.wrap (n + nw_close (num_words_loop s (NwState 0 iw wl))).
Proof.
  assert (∀ n iw wl, Int.wrap n = n →
            nw_close (NwState n iw wl) =
            Int.wrap (n + nw_close (NwState 0 iw wl))) as Hclose.
  { intros n iw wl Hn. unfold nw_close. cbn [nw_num_words nw_in_word nw_word_length].
    destruct (negb (iw =? 0) && (wl >? 1)); [reflexivity|].
    by rewrite Z.add_0_r, Hn. }
  induction s as [|a s IH]; intros n iw wl Hn; cbn [num_words_loop].
  - by apply Hclose.
  - unfold num_words_body. cbn [nw_num_words nw_in_word nw_word_length].
    destruct (isalpha (byte_val a)); [by apply IH|].
    rewrite (IH (nw_close (NwState n iw wl))).
    + rewrite (IH (nw_close (NwState 0 iw wl))).
      * rewrite (Hclose n iw wl Hn), wrap_add_l, wrap_add_r. f_equal. lia.
      * apply wrap_small, nw_close_range. done.
    + rewrite (Hclose n iw wl Hn). apply wrap_wrap.
Qed.

(** X2. The words of two streams joined by a non-alphabetic byte are
    counted as the sum, in [int] arithmetic, of the words of each. *)
Theorem num_words_app_sep (s1 s2 : FILE) (sep : ascii) :
  is_alpha sep = false →
  num_words (s1 ++ sep :: s2) = Int.add (num_words s1) (num_words s2).
Proof.
  intros Hsep. unfold num_words at 1.
  rewrite num_words_loop_app. cbn [num_words_loop]. unfold num_words_body at 1.
  fold (is_alpha sep). rewrite Hsep. fold (num_words s1).
  rewrite num_words_loop_shift; [reflexivity|].
  apply wrap_small, num_words_range.
Qed.

Lemma num_words_app_sep_witness :
  num_words (bytes "to be" ++ "."%char :: bytes "or not") =
  Int.add (num_words (bytes "to be")) (num_words (bytes "or not")).
Proof. apply num_words_app_sep. reflexivity. Defined.

(** Every run takes its bytes and, but for the last one, a byte behind it. *)
Lemma runs_from_weight (s : list ascii) :
  ∀ cur, (sum_list_with (λ r, S (length r)) (runs_from cur s)
          ≤ S (length cur + length s))%nat.
Proof.
  induction s as [|a s IH]; intros cur; cbn [runs_from].
  - destruct cur; simpl; lia.
  - destruct (is_alpha a).
    + specialize (IH (cur ++ [a])). rewrite length_app in IH.
      cbn [length] in *. lia.
    + specialize (IH []). destruct cur; simpl in *; lia.
Qed.

Lemma qualifying_weight (rs : list (list ascii)) :
  (3 * length (List.filter qualifies rs)
   ≤ sum_list_with (λ r, S (length r)) rs)%nat.
Proof.
  induction rs as [|r rs IH]; [done|].
  cbn [List.filter sum_list_with]. unfold qualifies at 1.
  destruct (Nat.leb_spec 2 (length r)); cbn [length]; lia.
Qed.

(** X3. A word takes two letters and, unless it ends the stream, a byte
    behind it: on a stream of at most [INT_MAX] bytes [num_words] returns a
    number between 0 and a third of the length plus one. *)
Theorem num_words_bounds (infile : FILE) :
  Z.of_nat (length infile) ≤ Int.INT_MAX →
  0 ≤ num_words infile ∧ 3 * num_words infile ≤ Z.of_nat (length infile) + 1.
Proof.
  intros Hlen. rewrite num_words_short_stream by done.
  pose proof (qualifying_weight (alpha_runs infile)) as Hq.
  pose proof (runs_from_weight infile []) as Hw.
  unfold count_runs. fold (alpha_runs infile) in Hw. simpl in Hw. lia.
Qed.

Lemma num_words_bounds_witness :
  0 ≤ num_words (bytes "ab cd ef") ∧
  3 * num_words (bytes "ab cd ef") ≤ Z.of_nat (length (bytes "ab cd ef")) + 1.
Proof. apply num_words_bounds. vm_compute. discriminate. Defined.

(** ** [count_words] *)

Lemma tolower_isalpha (c d : Z) : tolower c = tolower d → isalpha c = isalpha d.
Proof.
  unfold tolower, isalpha, isupper, islower.
  destruct (Z.leb_spec 65 c), (Z.leb_spec c 90), (Z.leb_spec 97 c),
    (Z.leb_spec c 122), (Z.leb_spec 65 d), (Z.leb_spec d 90),
    (Z.leb_spec 97 d), (Z.leb_spec d 122); simpl; intros; first [done | lia].
Qed.

Lemma count_words_loop_case {T : Type} (add : T → buffer → option T)
    (s1 s2 : list ascii) :
  Forall2 (λ a b, tolower (byte_val a) = tolower (byte_val b)) s1 s2 →
  ∀ st, count_words_loop add s1 st = count_words_loop add s2 st.
Proof.
  induction 1 as [|a b s1 s2 Hab _ IH]; intros st; [done|].
  cbn [count_words_loop]. unfold count_words_body.
  rewrite (tolower_isalpha _ _ Hab), Hab.
  match goal with |- ?x ≫= _ = _ => destruct x end; simpl; [apply IH | done].
Qed.

(** X4. [count_words] folds case before anything else: two streams that
    agree byte by byte up to [tolower] give the same result, on every table
    and whatever [add_word] does. *)
Theorem count_words_ignores_case {T : Type} (add : T → buffer → option T)
    (wclist : option T) (s1 s2 : FILE) :
  Forall2 (λ a b, tolower (byte_val a) = tolower (byte_val b)) s1 s2 →
  count_words add wclist (Some s1) = count_words add wclist (Some s2).
Proof.
  intros Hcase. destruct wclist as [t|]; [|done].
  unfold count_words, count_words_run.
  by rewrite (count_words_loop_case add s1 s2 Hcase).
Qed.

Lemma count_words_ignores_case_witness :
  count_words add_word_call (Some init_words) (Some (bytes "The CAT")) =
  count_words add_word_call (Some init_words) (Some (bytes "tHE cat")).
Proof. apply count_words_ignores_case. repeat constructor. Defined.

(** *** How many words are handed to [add_word] *)

(** A run of two letters or more always ends in a call: the buffer holds at
    least the letters of the open run, up to 64. *)
Lemma scan_loop_at_least (s : list ascii) :
  ∀ cur w,
    (length cur `min` Z.to_nat MAX_WORD_LEN ≤ length w)%nat →
    (length (List.filter qualifies (runs_from cur s))
     ≤ length ((scan_loop w s).1 ++ scan_close (scan_loop w s).2))%nat.
Proof.
  unfold MAX_WORD_LEN.
  induction s as [|a s IH]; intros cur w Hw; cbn [scan_loop runs_from fst snd].
  - unfold scan_close, qualifies. destruct cur as [|c cur]; [simpl; lia|].
    cbn [close_run List.filter].
    destruct (Nat.leb_spec 2 (length (c :: cur))); [|simpl; lia].
    destruct (Nat.leb_spec 2 (length w)); simpl in *; lia.
  - unfold scan_step. fold (is_alpha a). destruct (is_alpha a); cbn [fst snd app].
    + apply IH. rewrite length_app. cbn [length]. unfold MAX_WORD_LEN.
      destruct (Nat.ltb_spec (length w) (Z.to_nat 64));
        [rewrite length_app; cbn [length]|]; lia.
    + rewrite List.filter_app, !length_app.
      assert (length (List.filter qualifies (close_run cur))
              ≤ if (2 <=? length w)%nat then 1 else 0)%nat as Hcur.
      { unfold qualifies. destruct cur as [|c cur]; [simpl; lia|].
        cbn [close_run List.filter].
        destruct (Nat.leb_spec 2 (length (c :: cur))); [|simpl; lia].
        destruct (Nat.leb_spec 2 (length w)); simpl in *; lia. }
      destruct (2 <=? length w)%nat; cbn [fst snd length app].
      * specialize (IH [] []). rewrite length_app in IH. simpl in IH. lia.
      * specialize (IH [] w). rewrite length_app in IH. simpl in IH. lia.
Qed.

(** A call is made at the end of a run only: between runs the buffer holds
    one letter at most. *)
Lemma scan_loop_at_most (s : list ascii) :
  ∀ cur w,
    (cur = [] → length w ≤ 1)%nat →
    (length ((scan_loop w s).1 ++ scan_close (scan_loop w s).2)
     ≤ length (runs_from cur s))%nat.
Proof.
  induction s as [|a s IH]; intros cur w Hw; cbn [scan_loop runs_from fst snd].
  - unfold scan_close. destruct cur as [|c cur].
    + specialize (Hw eq_refl). destruct (Nat.leb_spec 2 (length w)); simpl; lia.
    + destruct (2 <=? length w)%nat; simpl; lia.
  - unfold scan_step. fold (is_alpha a). destruct (is_alpha a); cbn [fst snd app].
    + apply IH. by destruct cur.
    + rewrite !length_app. destruct (Nat.leb_spec 2 (length w)) as [Hlen|Hlen];
        cbn [fst snd length app].
      * specialize (IH [] []). rewrite length_app in IH.
        destruct cur as [|c cur]; [specialize (Hw eq_refl); lia|].
        simpl in *. lia.
      * specialize (IH [] w). rewrite length_app in IH.
        assert (length (scan_loop w s).1 + length (scan_close (scan_loop w s).2)
                ≤ length (runs_from [] s))%nat by (apply IH; lia).
        lia.
Qed.

(** X5. [count_words] hands [add_word] at least as many words as
    [num_words] counts on the same stream, and at most one for every
    alphabetic run (streams of at most [INT_MAX] bytes). *)
Theorem count_words_calls_bounds (infile : FILE) :
  Z.of_nat (length infile) ≤ Int.INT_MAX →
  num_words infile ≤ Z.of_nat (length (words_of infile)) ∧
  (length (words_of infile) ≤ length (alpha_runs infile))%nat.
Proof.
  intros Hlen. rewrite num_words_short_stream, words_of_scan by done.
  unfold scan_words, count_runs, alpha_runs. split.
  - apply inj_le, (scan_loop_at_least infile [] []). simpl. lia.
  - apply (scan_loop_at_most infile [] []). simpl. lia.
Qed.

Lemma count_words_calls_bounds_witness :
  num_words (bytes "a b cd") ≤ Z.of_nat (length (words_of (bytes "a b cd"))) ∧
  (length (words_of (bytes "a b cd")) ≤ length (alpha_runs (bytes "a b cd")))%nat.
Proof. apply count_words_calls_bounds. vm_compute. discriminate. Defined.

(** X6. On a stream in which every alphabetic run has two bytes at least,
    [count_words] hands [add_word] exactly the runs, in the order of the
    stream, each in lower case and cut after 64 bytes. *)
Theorem count_words_calls_are_runs (infile : FILE) :
  Forall (λ r, (2 ≤ length r)%nat) (alpha_runs infile) →
  words_of infile = stored <$> alpha_runs infile ∧
  ∀ t, count_words add_word_call (Some t) (Some infile) =
       Some (0, Some (foldl add_word t (stored <$> alpha_runs infile))).
Proof.
  intros Hruns. split; [by apply words_of_runs|].
  intros t. unfold count_words.
  by rewrite count_words_run_words, words_of_runs.
Qed.

Lemma count_words_calls_are_runs_witness :
  words_of (bytes "To be, or NOT to be") =
  stored <$> alpha_runs (bytes "To be, or NOT to be").
Proof.
  apply count_words_calls_are_runs. vm_compute. repeat constructor.
Defined.

(** *** Streams that leave the table alone *)

Lemma scan_loop_quiet (s : list ascii) :
  ∀ w, (length w + length (List.filter is_alpha s) < 2)%nat →
       (scan_loop w s).1 = [] ∧ scan_close (scan_loop w s).2 = [].
Proof.
  induction s as [|a s IH]; intros w Hlen; cbn [scan_loop fst snd].
  - split; [done|]. unfold scan_close. simpl in Hlen.
    destruct (Nat.leb_spec 2 (length w)); [lia | done].
  - unfold scan_step. fold (is_alpha a). cbn [List.filter] in Hlen.
    destruct (is_alpha a); cbn [fst snd app length] in *.
    + unfold MAX_WORD_LEN. destruct (Nat.ltb_spec (length w) (Z.to_nat 64)); [|lia].
      apply IH. rewrite length_app. simpl. lia.
    + destruct (Nat.leb_spec 2 (length w)); [lia|]. cbn [fst snd app]. by apply IH.
Qed.

Lemma scan_loop_loud (s : list ascii) :
  ∀ w, (scan_loop w s).1 ++ scan_close (scan_loop w s).2 = [] →
       (length w + length (List.filter is_alpha s) < 2)%nat.
Proof.
  induction s as [|a s IH]; intros w; cbn [scan_loop fst snd List.filter].
  - unfold scan_close. destruct (Nat.leb_spec 2 (length w)); [done | simpl; lia].
  - unfold scan_step. fold (is_alpha a).
    destruct (is_alpha a); cbn [fst snd app length].
    + unfold MAX_WORD_LEN.
      destruct (Nat.ltb_spec (length w) (Z.to_nat 64)) as [Hlt|Hge].
      * intros Hq%IH. rewrite length_app in Hq. simpl in Hq. lia.
      * intros Hq%IH. lia.
    + destruct (Nat.leb_spec 2 (length w)) as [Hlen|Hlen];
        cbn [fst snd app]; [done|].
      intros Hq%IH. lia.
Qed.

(** X7. [count_words] makes no call of [add_word] exactly on the streams
    with fewer than two alphabetic bytes (letters need not be adjacent to
    end up in a word), and then returns 0 and leaves the table as it was,
    whatever [add_word] does. *)
Theorem count_words_silent (infile : FILE) :
  (words_of infile = [] ↔ (length (List.filter is_alpha infile) < 2)%nat) ∧
  (words_of infile = [] →
   ∀ (T : Type) (add : T → buffer → option T) (t : T),
     count_words add (Some t) (Some infile) = Some (0, Some t)).
Proof.
  split.
  - rewrite words_of_scan. unfold scan_words. split.
    + apply (scan_loop_loud infile []).
    + intros Hlen. destruct (scan_loop_quiet infile [] Hlen) as [-> ->]. done.
  - intros Hwords T add t.
    destruct (count_words_run_log infile) as (calls & Hrun & Hgood & Hws).
    rewrite <- words_of_scan, Hwords in Hws.
    assert (calls = []) as ->.
    { destruct Hgood as [|buf calls (s & Hs & _) _]; [done|].
      simpl in Hws. by rewrite Hs in Hws. }
    unfold count_words.
    by rewrite (count_words_run_calls add infile [] t Hrun).
Qed.

(** *** Letters behind the 64th of a run *)

Lemma scan_loop_app (s1 s2 : list ascii) :
  ∀ w, scan_loop w (s1 ++ s2) =
       ((scan_loop w s1).1 ++ (scan_loop (scan_loop w s1).2 s2).1,
        (scan_loop (scan_loop w s1).2 s2).2).
Proof.
  induction s1 as [|a s1 IH]; intros w; cbn [app scan_loop fst snd].
  - by destruct (scan_loop w s2).
  - rewrite IH. cbn [fst snd]. by rewrite app_assoc.
Qed.

(** A run fills the buffer, up to 64 bytes, and makes no call. *)
Lemma scan_loop_run (run : list ascii) :
  Forall (λ a, is_alpha a = true) run →
  ∀ w, (scan_loop w run).1 = [] ∧
       ((length w + length run) `min` Z.to_nat MAX_WORD_LEN
        ≤ length (scan_loop w run).2)%nat.
Proof.
  unfold MAX_WORD_LEN.
  induction 1 as [|a run Ha _ IH]; intros w; cbn [scan_loop fst snd length].
  - split; [done | lia].
  - unfold scan_step. fold (is_alpha a). rewrite Ha. cbn [fst snd app].
    unfold MAX_WORD_LEN.
    destruct (Nat.ltb_spec (length w) (Z.to_nat 64)) as [Hlt|Hge].
    + destruct (IH (w ++ [char_of_int (tolower (byte_val a))])) as [-> Hlen].
      split; [done|]. rewrite length_app in Hlen. simpl in Hlen. lia.
    + destruct (IH w) as [-> Hlen]. split; [done | lia].
Qed.

(** Once the buffer is full, letters change nothing. *)
Lemma scan_loop_full (extra : list ascii) :
  Forall (λ a, is_alpha a = true) extra →
  ∀ w, (Z.to_nat MAX_WORD_LEN ≤ length w)%nat → scan_loop w extra = ([], w).
Proof.
  induction 1 as [|a extra Ha _ IH]; intros w Hw; cbn [scan_loop]; [done|].
  unfold scan_step. fold (is_alpha a). rewrite Ha.
  destruct (Nat.ltb_spec (length w) (Z.to_nat MAX_WORD_LEN)); [lia|].
  cbn [fst snd app]. by rewrite IH.
Qed.

(** X8. The bytes of an alphabetic run behind its 64th never count: adding
    letters to a run of 64 letters or more changes neither the words handed
    to [add_word] nor the table. *)
Theorem count_words_ignores_overlong (pre run extra post : list ascii) :
  Forall (λ a, is_alpha a = true) run →
  Forall (λ a, is_alpha a = true) extra →
  (Z.to_nat MAX_WORD_LEN ≤ length run)%nat →
  words_of (pre ++ run ++ extra ++ post) = words_of (pre ++ run ++ post) ∧
  ∀ wclist,
    count_words add_word_call wclist (Some (pre ++ run ++ extra ++ post)) =
    count_words add_word_call wclist (Some (pre ++ run ++ post)).
Proof.
  intros Hrun Hextra Hlen.
  assert (words_of (pre ++ run ++ extra ++ post) =
          words_of (pre ++ run ++ post)) as Hwords.
  { rewrite !words_of_scan. unfold scan_words.
    rewrite !scan_loop_app. cbn [fst snd].
    destruct (scan_loop_run run Hrun (scan_loop [] pre).2) as [_ Hfull].
    rewrite (scan_loop_full extra Hextra); [done|].
    unfold MAX_WORD_LEN in *. lia. }
  split; [done|]. intros [t|]; [|done].
  unfold count_words. by rewrite !count_words_run_words, Hwords.
Qed.

Lemma count_words_ignores_overlong_witness :
  words_of (bytes "a " ++ replicate 64 "b"%char ++ bytes "cd" ++ bytes " e") =
  words_of (bytes "a " ++ replicate 64 "b"%char ++ bytes " e").
Proof.
  apply count_words_ignores_overlong.
  - by apply Forall_replicate.
  - by repeat constructor.
  - vm_compute. lia.
Defined.

(** ** [wordcount_less] *)

Lemma strcmp_refl (s : string) : strcmp s s = 0.
Proof. induction s as [|a s IH]; simpl; [done|]. by rewrite Z.eqb_refl. Qed.

Lemma str_lt_trans (s t u : string) : str_lt s t → str_lt t u → str_lt s u.
Proof.
  intros Hst. revert u. induction Hst as [b t|a s b t Hab|a s t _ IH];
    intros u Htu; inversion Htu; subst.
  - constructor.
  - constructor.
  - apply str_lt_head. lia.
  - by apply str_lt_head.
  - by apply str_lt_head.
  - apply str_lt_tail. by apply IH.
Qed.

Lemma wordcount_less_trans (A B C : WordCount) :
  c_string (word B) → c_string (word C) →
  wordcount_less A B = true → wordcount_less B C = true →
  wordcount_less A C = true.
Proof.
  intros HB HC. rewrite !wordcount_less_spec by done.
  intros [Hab|[Hab Hsab]] [Hbc|[Hbc Hsbc]]; [left; lia..|].
  right. split; [congruence | by apply (str_lt_trans _ (word B))].
Qed.

Lemma wordcount_less_total (A B : WordCount) :
  c_string (word A) → c_string (word B) →
  wordcount_less A B = true ∨ A = B ∨ wordcount_less B A = true.
Proof.
  intros HA HB. rewrite !wordcount_less_spec by done.
  destruct (N.lt_trichotomy (count A) (count B)) as [?|[Heq|?]]; [by auto| |by auto].
  destruct (str_lt_trichotomy (word A) (word B)) as [?|[Hw|?]]; [by auto| |by auto].
  right; left. destruct A, B; simpl in *. congruence.
Qed.

(** X9. On records whose words are C strings [wordcount_less] is a strict
    total order: no record is less than itself, the comparator is
    transitive, it never holds in both directions, and of two records that
    differ in count or word one is less than the other. *)
Theorem wordcount_less_strict_total (A B C : WordCount) :
  c_string (word A) → c_string (word B) → c_string (word C) →
  wordcount_less A A = false ∧
  (wordcount_less A B = true → wordcount_less B C = true →
   wordcount_less A C = true) ∧
  (wordcount_less A B = true → wordcount_less B A = false) ∧
  (wordcount_less A B = true ∨ A = B ∨ wordcount_less B A = true).
Proof.
  intros HA HB HC. split; [|split; [|split]].
  - unfold wordcount_less. by rewrite N.eqb_refl, strcmp_refl.
  - by apply wordcount_less_trans.
  - apply wordcount_less_asym.
  - by apply wordcount_less_total.
Qed.

Lemma wordcount_less_strict_total_witness :
  wordcount_less (mkWordCount "cat" 1) (mkWordCount "cat" 1) = false ∧
  (wordcount_less (mkWordCount "cat" 1) (mkWordCount "dog" 1) = true →
   wordcount_less (mkWordCount "dog" 1) (mkWordCount "ant" 2) = true →
   wordcount_less (mkWordCount "cat" 1) (mkWordCount "ant" 2) = true) ∧
  (wordcount_less (mkWordCount "cat" 1) (mkWordCount "dog" 1) = true →
   wordcount_less (mkWordCount "dog" 1) (mkWordCount "cat" 1) = false) ∧
  (wordcount_less (mkWordCount "cat" 1) (mkWordCount "dog" 1) = true ∨
   mkWordCount "cat" 1 = mkWordCount "dog" 1 ∨
   wordcount_less (mkWordCount "dog" 1) (mkWordCount "cat" 1) = true).
Proof.
  apply (wordcount_less_strict_total
           (mkWordCount "cat" 1) (mkWordCount "dog" 1) (mkWordCount "ant" 2));
    simpl; repeat split; discriminate.
Defined.

(** ** [main]: the flags *)

Lemma parse_flags_other (opts : list Z) :
  Exists (λ o, o ≠ 99 ∧ o ≠ 102) opts →
  ∀ cm fm, parse_flags opts cm fm = inl display_help.
Proof.
  induction 1 as [o opts [Hc Hf]|o opts _ IH]; intros cm fm; cbn [parse_flags].
  - destruct (Z.eqb_spec o 99); [done|]. destruct (Z.eqb_spec o 102); [done|].
    by destruct (o =? 104).
  - destruct (o =? 99); [apply IH|]. destruct (o =? 102); [apply IH|].
    by destruct (o =? 104).
Qed.

Lemma parse_flags_mode_flags (opts : list Z) :
  Forall (λ o, o = 99 ∨ o = 102) opts →
  ∀ cm fm,
    parse_flags opts cm fm =
    inr (match last opts with
         | None => (cm, fm)
         | Some o => if o =? 99 then (true, false) else (false, true)
         end).
Proof.
  induction 1 as [|o opts Ho Hopts IH]; intros cm fm; [done|].
  cbn [parse_flags]. destruct opts as [|o' opts].
  - destruct Ho as [-> | ->]; reflexivity.
  - change (last (o :: o' :: opts)) with (last (o' :: opts)).
    destruct Ho as [-> | ->]; cbn [Z.eqb Pos.eqb]; rewrite IH;
      (destruct (last (o' :: opts)) eqn:Hlast; [done|]);
      by apply last_None in Hlast.
Qed.

(** The output of a run that gets past the flags: the diagnostics for the
    files that cannot be opened, then one report. *)
Lemma main_with_report
    (cw : option WordCountList → option FILE → option (Z * option WordCountList))
    (fopen : string → option FILE) (opts : list Z) (paths : list string)
    (stdin : FILE) (modes : bool * bool) (code : Z) (out : list event) :
  parse_flags opts true false = inr modes →
  main_with cw fopen opts paths stdin = Some (code, out) →
  ∃ report, out = (Perror <$> unopened fopen paths) ++ [report] ∧
            report ≠ Help.
Proof.
  intros Hparse. unfold main_with. rewrite Hparse. destruct modes as [cm fm].
  apply parse_flags_modes in Hparse; [|done].
  assert (negb cm && negb fm = false) as -> by by destruct cm, fm.
  destruct (match paths with [] => _ | _ => _ end) as [st|] eqn:Hst; simpl; [|done].
  assert (output st = Perror <$> unopened fopen paths) as ->.
  { destruct paths as [|path paths].
    - by apply read_stdin_output in Hst.
    - by apply files_loop_output in Hst. }
  destruct cm; [|destruct fm; [|done]]; intros [= <- <-]; by eexists.
Qed.

(** X10. The run of [main] ends with status 0 and with the help text as
    the only thing [main] has written exactly when [getopt_long] has
    returned some value other than 'c' and 'f' ('h', or what it returns for
    an option it does not know); this is so for every list of file
    arguments, every file system and every standard input. The output
    meant is that of [main.c] ([display_help], the [printf]s and [perror]
    of [main]); a message [getopt_long] writes by itself is not part of
    it. *)
Theorem main_help (fopen : string → option FILE)
    (opts : list Z) (paths : list string) (stdin : FILE) :
  main fopen opts paths stdin = Some (0, [Help]) ↔
  Exists (λ o, o ≠ 99 ∧ o ≠ 102) opts.
Proof.
  split.
  - intros Hmain. destruct (decide (Exists (λ o, o ≠ 99 ∧ o ≠ 102) opts))
      as [|Hnone]; [done|]. exfalso.
    apply not_Exists_Forall in Hnone; [|apply _].
    assert (Forall (λ o, o = 99 ∨ o = 102) opts) as Hmodes.
    { eapply Forall_impl; [exact Hnone|]. simpl. intros o Ho.
      destruct (Z.eq_dec o 99), (Z.eq_dec o 102); auto.
      exfalso. apply Ho. done. }
    pose proof (parse_flags_mode_flags opts Hmodes true false) as Hparse.
    destruct (main_with_report _ _ _ _ _ _ _ _ Hparse Hmain)
      as (report & Hout & Hreport).
    destruct (unopened fopen paths) as [|p ps]; simpl in Hout.
    + congruence.
    + discriminate Hout.
  - intros Hother. unfold main, main_with.
    by rewrite (parse_flags_other opts Hother).
Qed.

(** X11. With -c and -f flags only, the last one decides: the mode is that
    of the last flag, and total count without any flag. *)
Theorem parse_flags_last_wins (opts : list Z) :
  Forall (λ o, o = 99 ∨ o = 102) opts →
  parse_flags opts true false =
  inr (match last opts with
       | Some 102 => (false, true)
       | _ => (true, false)
       end).
Proof.
  intros Hopts. rewrite (parse_flags_mode_flags opts Hopts). f_equal.
  destruct (last opts) as [o|] eqn:Hlast; [|done].
  assert (o = 99 ∨ o = 102) as [-> | ->]; [|done..].
  rewrite Forall_forall in Hopts. apply Hopts.
  apply last_Some in Hlast as [l' ->]. apply elem_of_app. right. left.
Qed.

Lemma parse_flags_last_wins_witness :
  parse_flags [102; 99; 102] true false = inr (false, true).
Proof.
  apply (parse_flags_last_wins [102; 99; 102]).
  repeat (apply List.Forall_cons; [auto|]). apply List.Forall_nil.
Defined.

(** ** [main]: the inputs *)

Lemma none_opened (fopen : string → option FILE) (paths : list string) :
  Forall (λ path, fopen path = None) paths →
  opened fopen paths = [] ∧ unopened fopen paths = paths.
Proof.
  induction 1 as [|path paths Hpath _ [IHo IHu]]; [done|].
  by rewrite (opened_cons_None _ _ _ Hpath), (unopened_cons_None _ _ _ Hpath),
    IHo, IHu.
Qed.

(** X12. When none of the files named can be opened, [main] reports each of
    them with [perror], in the order of the command line, then prints a
    total of 0, or an empty table; it ends with status 0 and does not fall
    back on standard input. *)
Theorem main_no_file_opened (fopen : string → option FILE) (opts : list Z)
    (path : string) (paths : list string) (stdin : FILE)
    (count_mode freq_mode : bool) :
  Forall (λ p, fopen p = None) (path :: paths) →
  parse_flags opts true false = inr (count_mode, freq_mode) →
  main fopen opts (path :: paths) stdin =
  Some (0, (Perror <$> path :: paths) ++
           [if count_mode then TotalWords 0 else Frequencies []]).
Proof.
  intros Hnone Hparse. destruct (none_opened fopen _ Hnone) as [Ho Hu].
  unfold main, main_with. rewrite Hparse.
  apply parse_flags_modes in Hparse; [|done].
  destruct count_mode, freq_mode; try done; cbn [negb andb].
  - rewrite files_loop_count by done. by rewrite Ho, Hu.
  - rewrite files_loop_freq. by rewrite Ho, Hu.
Qed.

Lemma main_no_file_opened_witness :
  main (λ _, None) [102] ["one"; "two"] (bytes "not read") =
  Some (0, [Perror "one"; Perror "two"; Frequencies []]).
Proof.
  apply (main_no_file_opened (λ _, None) [102] "one" ["two"]
           (bytes "not read") false true).
  - by repeat constructor.
  - reflexivity.
Defined.

(** X13. [main] treats a file and standard input alike: a run on one file
    that can be opened writes what a run without file arguments writes when
    standard input holds the bytes of the file. *)
Theorem main_file_or_stdin (fopen fopen' : string → option FILE)
    (opts : list Z) (path : string) (f stdin : FILE) :
  fopen path = Some f →
  main fopen opts [path] stdin = main fopen' opts [] f.
Proof.
  intros Hf. unfold main, main_with.
  destruct (parse_flags opts true false) as [ret|[cm fm]] eqn:Hparse; [done|].
  apply parse_flags_modes in Hparse; [|done].
  destruct cm, fm; try done; cbn [negb andb].
  - rewrite files_loop_count by done.
    rewrite (opened_cons_Some _ _ _ _ Hf), (unopened_cons_Some _ _ _ _ Hf).
    unfold read_stdin. simpl.
    rewrite Z.add_0_r, wrap_small by apply num_words_range. done.
  - rewrite files_loop_freq.
    rewrite (opened_cons_Some _ _ _ _ Hf), (unopened_cons_Some _ _ _ _ Hf).
    unfold read_stdin. rewrite call_count_words_words. simpl.
    by rewrite app_nil_r.
Qed.

Lemma main_file_or_stdin_witness :
  main two_files [102] ["first"] [] = main (λ _, None) [102] [] (bytes "dog dog").
Proof. apply (main_file_or_stdin two_files). reflexivity. Defined.

Lemma Z_sum_perm (l l' : list Z) : l ≡ₚ l' → Z_sum l = Z_sum l'.
Proof.
  induction 1 as [|x l l' _ IH|x y l|l l' l'' _ IH1 _ IH2]; simpl;
    [done | by rewrite IH | lia | congruence].
Qed.

(** X14. In total-count mode the total does not depend on the order in
    which the files are named. *)
Theorem main_total_any_order (fopen : string → option FILE) (opts : list Z)
    (paths paths' : list string) (stdin : FILE) :
  paths ≡ₚ paths' →
  parse_flags opts true false = inr (true, false) →
  ∃ total,
    main fopen opts paths stdin =
      Some (0, (Perror <$> unopened fopen paths) ++ [TotalWords total]) ∧
    main fopen opts paths' stdin =
      Some (0, (Perror <$> unopened fopen paths') ++ [TotalWords total]).
Proof.
  intros Hperm Hparse. unfold main, main_with. rewrite Hparse. cbn [negb andb].
  destruct paths as [|path paths].
  - apply Permutation_nil_l in Hperm as <-. by eexists.
  - destruct paths' as [|path' paths'];
      [by apply Permutation_nil_r in Hperm|].
    rewrite !files_loop_count by done.
    rewrite (Z_sum_perm (num_words <$> opened fopen (path' :: paths'))
               (num_words <$> opened fopen (path :: paths)))
      by (unfold opened; by rewrite Hperm).
    by eexists.
Qed.

Lemma main_total_any_order_witness :
  ∃ total,
    main two_files [] ["none"; "first"; "second"] [] =
      Some (0, (Perror <$> unopened two_files ["none"; "first"; "second"]) ++
               [TotalWords total]) ∧
    main two_files [] ["none"; "second"; "first"] [] =
      Some (0, (Perror <$> unopened two_files ["none"; "second"; "first"]) ++
               [TotalWords total]).
Proof.
  apply main_total_any_order; [|reflexivity]. apply perm_skip, perm_swap.
Defined.

(** *** The order of the files in frequency mode *)

Lemma wordcount_less_neg_trans (A B C : WordCount) :
  c_string (word A) → c_string (word B) → c_string (word C) →
  wordcount_less A B = false → wordcount_less B C = false →
  wordcount_less A C = false.
Proof.
  intros HA HB HC Hab Hbc.
  destruct (wordcount_less A C) eqn:Hac; [|done].
  destruct (wordcount_less_total B C HB HC) as [H|[->|H]]; [congruence.. |].
  rewrite (wordcount_less_trans A C B) in Hab; done.
Qed.

Lemma sorted_by_tail (less : WordCount → WordCount → bool)
    (x : WordCount) (l : list WordCount) :
  sorted_by less (x :: l) → sorted_by less l.
Proof. intros Hs i A B HA HB. by apply (Hs (S i)). Qed.

Lemma sorted_head_least (l : list WordCount) :
  ∀ x, Forall (λ wc, c_string (word wc)) (x :: l) →
       sorted_by wordcount_less (x :: l) →
       Forall (λ y, wordcount_less y x = false) l.
Proof.
  induction l as [|y l IH]; intros x Hwf Hs; [done|].
  apply sorted_by_cons in Hs as [Hyx Hs].
  apply Forall_cons in Hwf as [Hx Hwf].
  constructor; [done|].
  pose proof (IH y Hwf Hs) as Hl.
  apply Forall_cons in Hwf as [Hy Hwf].
  rewrite Forall_forall in Hl, Hwf. apply Forall_forall. intros z Hz.
  apply (wordcount_less_neg_trans z y x); auto.
Qed.

(** Two tables with the same records, both in the order of the comparator,
    are equal. *)
Lemma sorted_perm_unique (l : list WordCount) :
  ∀ l', Forall (λ wc, c_string (word wc)) l → l ≡ₚ l' →
        sorted_by wordcount_less l → sorted_by wordcount_less l' → l = l'.
Proof.
  induction l as [|x l IH]; intros l' Hwf Hperm Hs Hs'.
  - by apply Permutation_nil_l in Hperm.
  - destruct l' as [|x' l']; [by apply Permutation_nil_r in Hperm|].
    assert (Forall (λ wc, c_string (word wc)) (x' :: l')) as Hwf'
      by by rewrite <- Hperm.
    pose proof (sorted_head_least l x Hwf Hs) as Hl.
    pose proof (sorted_head_least l' x' Hwf' Hs') as Hl'.
    assert (x = x') as <-.
    { assert (x' ∈ x :: l) as Hx' by (rewrite Hperm; left).
      assert (x ∈ x' :: l') as Hx by (rewrite <- Hperm; left).
      apply elem_of_cons in Hx' as [->|Hx']; [done|].
      apply elem_of_cons in Hx as [->|Hx]; [done|].
      rewrite Forall_forall in Hl, Hl'.
      apply Forall_cons in Hwf as [Hcx _]. apply Forall_cons in Hwf' as [Hcx' _].
      destruct (wordcount_less_total x x' Hcx Hcx') as [H|[H|H]]; [|done|].
      - rewrite (Hl' x Hx) in H. done.
      - rewrite (Hl x' Hx') in H. done. }
    f_equal. apply IH.
    + by apply Forall_cons in Hwf as [_ ?].
    + by apply Permutation_cons_inv in Hperm.
    + by apply sorted_by_tail in Hs.
    + by apply sorted_by_tail in Hs'.
Qed.

Lemma elem_of_words_add_words (ws : list string) (w : string) :
  ∀ t, w ∈ word <$> foldl add_word t ws ↔ w ∈ word <$> t ∨ w ∈ ws.
Proof.
  induction ws as [|s ws IH]; intros t; cbn [foldl].
  - split; [by left | intros [?|Hin]; [done | by apply elem_of_nil in Hin]].
  - rewrite IH, words_add_word, elem_of_cons.
    destruct (decide (s ∈ word <$> t)) as [Hs|Hs].
    + split; [intros [?|?]; auto | intros [?|[->|?]]; auto].
    + rewrite elem_of_app, list_elem_of_singleton.
      split; [intros [[?|?]|?]; auto | intros [?|[?|?]]; auto].
Qed.

Lemma occurrences_perm (w : string) (ws ws' : list string) :
  ws ≡ₚ ws' → occurrences w ws = occurrences w ws'.
Proof.
  induction 1 as [|x l l' _ IH|x y l|l l' l'' _ IH1 _ IH2]; simpl.
  - done.
  - by rewrite IH.
  - by destruct (String.eqb x w), (String.eqb y w).
  - congruence.
Qed.

Lemma add_words_elem_of (ws ws' : list string) (wc : WordCount) :
  ws ≡ₚ ws' →
  wc ∈ foldl add_word [] ws → wc ∈ foldl add_word [] ws'.
Proof.
  intros Hperm Hwc.
  assert (NoDup (word <$> foldl add_word [] ws)) as Hnd
    by (apply add_words_NoDup; constructor).
  assert (NoDup (word <$> foldl add_word [] ws')) as Hnd'
    by (apply add_words_NoDup; constructor).
  assert (word wc ∈ word <$> foldl add_word [] ws') as Hin.
  { apply elem_of_words_add_words. right. rewrite <- Hperm.
    assert (word wc ∈ word <$> foldl add_word [] ws) as Hw
      by by apply list_elem_of_fmap_2.
    apply elem_of_words_add_words in Hw as [Hw|Hw]; [|done].
    by apply elem_of_nil in Hw. }
  apply list_elem_of_fmap in Hin as (wc' & Hword & Hwc').
  pose proof (lookup_count_elem_of wc _ Hnd Hwc) as Hc.
  pose proof (lookup_count_elem_of wc' _ Hnd' Hwc') as Hc'.
  rewrite lookup_count_add_words in Hc, Hc'.
  rewrite <- Hword, <- (occurrences_perm _ _ _ Hperm), Hc in Hc'.
  destruct wc, wc'; simpl in *. by subst.
Qed.

Lemma add_words_perm (ws ws' : list string) :
  ws ≡ₚ ws' → foldl add_word [] ws ≡ₚ foldl add_word [] ws'.
Proof.
  intros Hperm. apply NoDup_Permutation.
  - eapply NoDup_fmap_1, add_words_NoDup. constructor.
  - eapply NoDup_fmap_1, add_words_NoDup. constructor.
  - intros wc. split; by apply add_words_elem_of.
Qed.

Lemma concat_perm {A : Type} (ls ls' : list (list A)) :
  ls ≡ₚ ls' → concat ls ≡ₚ concat ls'.
Proof.
  induction 1 as [|x l l' _ IH|x y l|l l' l'' _ IH1 _ IH2]; simpl.
  - done.
  - by rewrite IH.
  - rewrite !app_assoc. by rewrite (Permutation_app_comm x y).
  - by etrans.
Qed.

(** X15. In frequency mode the table printed does not depend on the order
    in which the files are named. *)
Theorem main_frequencies_any_order (fopen : string → option FILE)
    (opts : list Z) (paths paths' : list string) (stdin : FILE) :
  paths ≡ₚ paths' →
  parse_flags opts true false = inr (false, true) →
  ∃ printed,
    main fopen opts paths stdin =
      Some (0, (Perror <$> unopened fopen paths) ++ [Frequencies printed]) ∧
    main fopen opts paths' stdin =
      Some (0, (Perror <$> unopened fopen paths') ++ [Frequencies printed]).
Proof.
  intros Hperm Hparse. unfold main, main_with. rewrite Hparse. cbn [negb andb].
  destruct paths as [|path paths].
  - apply Permutation_nil_l in Hperm as <-. unfold read_stdin.
    rewrite call_count_words_words. by eexists.
  - destruct paths' as [|path' paths'];
      [by apply Permutation_nil_r in Hperm|].
    rewrite !files_loop_freq. cbn [mbind option_bind word_counts output app].
    eexists. split; [reflexivity|]. do 5 f_equal.
    assert (concat (words_of <$> opened fopen (path' :: paths')) ≡ₚ
            concat (words_of <$> opened fopen (path :: paths))) as Hws
      by (apply concat_perm; unfold opened; by rewrite Hperm).
    apply sorted_perm_unique.
    + rewrite wordcount_sort_perm.
      eapply Forall_impl;
        [apply (add_words_Forall good_word); [|constructor]|].
      * apply Forall_concat, Forall_fmap, Forall_forall.
        intros f _. apply words_of_good.
      * intros wc. apply good_word_c_string.
    + rewrite !wordcount_sort_perm. by apply add_words_perm.
    + apply wordcount_sort_sorted, wordcount_less_asym.
    + apply wordcount_sort_sorted, wordcount_less_asym.
Qed.

Lemma main_frequencies_any_order_witness :
  ∃ printed,
    main two_files [102] ["none"; "first"; "second"] [] =
      Some (0, (Perror <$> unopened two_files ["none"; "first"; "second"]) ++
               [Frequencies printed]) ∧
    main two_files [102] ["none"; "second"; "first"] [] =
      Some (0, (Perror <$> unopened two_files ["none"; "second"; "first"]) ++
               [Frequencies printed]).
Proof.
  apply main_frequencies_any_order; [|reflexivity]. apply perm_skip, perm_swap.
Defined.

(** ** The two modes *)

(** X16. On a stream of at most [INT_MAX] bytes in which every alphabetic
    run has two bytes at least, the two modes agree: [count_words] hands
    [add_word] as many words as [num_words] counts. *)
Theorem count_words_matches_num_words (infile : FILE) :
  Forall (λ r, (2 ≤ length r)%nat) (alpha_runs infile) →
  Z.of_nat (length infile) ≤ Int.INT_MAX →
  Z.of_nat (length (words_of infile)) = num_words infile.
Proof.
  intros Hruns Hlen.
  rewrite words_of_runs, length_fmap, num_words_short_stream by done.
  unfold count_runs. f_equal. f_equal.
  induction Hruns as [|r rs Hr _ IH]; [done|]. simpl.
  unfold qualifies at 1. destruct (Nat.leb_spec 2 (length r)); [|lia].
  by rewrite <- IH.
Qed.

Lemma count_words_matches_num_words_witness :
  Z.of_nat (length (words_of (bytes "the cat sat on the mat"))) =
  num_words (bytes "the cat sat on the mat").
Proof.
  apply count_words_matches_num_words.
  - vm_compute. repeat constructor.
  - vm_compute. discriminate.
Defined.
